(** * The normalizing factory of the optimizer ([pkg/sql/opt/norm/factory.go])

    A shallow embedding of the [Factory] helper code and of the rule cycle
    guard, together with the properties stated about them.  Go slices are
    modelled with their backing array, panics and exhausted recursion budgets
    are explicit outcomes, and the parts of the [memo] package the factory
    calls into are modelled from the written specification. *)

From Stdlib Require Import ZArith String.
From stdpp Require Import base option list gmap strings.

Open Scope nat_scope.

(** ** Outcomes of a call *)

(** A Go call either returns, or panics.  [OutOfFuel] is only produced by the
    recursive construction functions below, whose recursion is bounded by an
    explicit budget. *)
Inductive panic :=
  | SliceBoundsOutOfRange (hi : Z) (capacity : nat)
  | InvalidGroup (g : N)
  | ConsistencyCheckFailed (msg : string).

Inductive outcome (A : Type) :=
  | Returned (a : A)
  | Panicked (p : panic)
  | OutOfFuel.
Arguments Returned {A} a.
Arguments Panicked {A} p.
Arguments OutOfFuel {A}.

Definition obind {A B} (o : outcome A) (k : A → outcome B) : outcome B :=
  match o with
  | Returned a => k a
  | Panicked p => Panicked p
  | OutOfFuel => OutOfFuel
  end.

Definition returns {A} (o : outcome A) : Prop := ∃ a, o = Returned a.

(** ** Go slices *)

Module GoSlice.
Section slice.
Context {A : Type}.

(** A slice is either [nil] or a window on a backing array.  The array is
    kept as the elements inside the window ([live], of length [len]) followed
    by the slots between [len] and [cap] ([spare]), so that every value of
    the type is a well-formed slice. *)
Inductive slice :=
  | nil_slice
  | mk_slice (live spare : list A).

Definition elems (s : slice) : list A :=
  match s with nil_slice => [] | mk_slice live _ => live end.

Definition array (s : slice) : list A :=
  match s with nil_slice => [] | mk_slice live spare => live ++ spare end.

Definition len (s : slice) : nat := length (elems s).
Definition cap (s : slice) : nat := length (array s).

Definition is_nil (s : slice) : bool :=
  match s with nil_slice => true | mk_slice _ _ => false end.

(** [s[:hi]]: panics unless [0 <= hi <= cap(s)]; the backing array is kept. *)
Definition slice_to (s : slice) (hi : Z) : outcome slice :=
  if bool_decide (0 ≤ hi ≤ Z.of_nat (cap s))%Z then
    Returned
      match s with
      | nil_slice => nil_slice
      | mk_slice live spare =>
          mk_slice (take (Z.to_nat hi) (live ++ spare))
                   (drop (Z.to_nat hi) (live ++ spare))
      end
  else Panicked (SliceBoundsOutOfRange hi (cap s)).

(** [append(s, x)]: writes into the next spare slot when there is one, and
    otherwise moves the elements to a fresh array.  The capacity of the fresh
    array is chosen by the runtime ([growcap old_cap needed]); its unused
    slots hold the zero value. *)
Definition append (zero : A) (growcap : nat → nat → nat) (s : slice) (x : A)
  : slice :=
  match s with
  | mk_slice live (_ :: spare) => mk_slice (live ++ [x]) spare
  | _ =>
      let needed := S (len s) in
      mk_slice (elems s ++ [x])
               (replicate (growcap (cap s) needed - needed) zero)
  end.
End slice.
Arguments slice : clear implicits.
End GoSlice.

Import GoSlice.

(** ** Identifiers and expressions of the memo *)

Definition GroupID := N.
Definition PrivateID := N.
Definition ListID := N.
Definition ExprOrdinal := N.
Definition ColumnID := N.

(** Modelled from the spec: the operator tags of package [opt], which
    [factory.go] imports.  The constant operators and the placeholder operator
    are the ones the factory helpers name; every other tag is [OtherOp]. *)
Inductive Operator :=
  | NullOp | TrueOp | FalseOp | ConstOp | PlaceholderOp
  | OtherOp (tag : N).

(** The number an operator tag is encoded by in a fingerprint. *)
Definition opCode (o : Operator) : N :=
  match o with
  | NullOp => 0 | TrueOp => 1 | FalseOp => 2 | ConstOp => 3
  | PlaceholderOp => 4 | OtherOp tag => 5 + tag
  end.

(** Modelled from the spec: [memo.Expr], "an operator tag plus an ordered list
    of child references", with its operator-specific data held as interned
    handles. *)
Record Expr := mkExpr {
  op : Operator;
  private : list PrivateID;
  children : list GroupID;
}.

(** Modelled from the spec: [memo.Fingerprint], the "canonical, order-sensitive
    encoding of (operator tag, operator-specific static data, sequence of child
    group identifiers)".  The encoding is a sequence of words; the data is
    length-prefixed so that it cannot run into the children. *)
Definition Fingerprint := list N.

Definition fingerprint (e : Expr) : Fingerprint :=
  opCode (op e) :: N.of_nat (length (private e)) :: private e ++ children e.

(** ** The rule cycle guard *)

(** The capacity a grown slice receives is the Go runtime's choice. *)
Class GoRuntime := { growcap : nat → nat → nat }.

Section RuleCycles.
Context {runtime : GoRuntime}.

Record ruleCycles := mkRuleCycles { stack : slice Fingerprint }.

(** The fingerprints on the stack, bottom first. *)
Definition onStack (rc : ruleCycles) : list Fingerprint := elems (stack rc).

(** [if rc.stack != nil { rc.stack = rc.stack[:0] }] *)
Definition init (rc : ruleCycles) : outcome ruleCycles :=
  if is_nil (stack rc) then Returned rc
  else obind (slice_to (stack rc) 0) (λ s, Returned (mkRuleCycles s)).

(** The [range] loop of [detectCycle], leaving at the first hit. *)
Fixpoint detectCycle_range (l : list Fingerprint) (f : Fingerprint) : bool :=
  match l with
  | [] => false
  | existing :: rest =>
      if decide (existing = f) then true else detectCycle_range rest f
  end.

(** [for _, existing := range rc.stack { if existing == f { return true } }],
    then [return false]. *)
Definition detectCycle (rc : ruleCycles) (f : Fingerprint) : bool :=
  detectCycle_range (elems (stack rc)) f.

(** [rc.stack = append(rc.stack, f)] *)
Definition push (rc : ruleCycles) (f : Fingerprint) : ruleCycles :=
  mkRuleCycles (append [] growcap (stack rc) f).

(** [rc.stack = rc.stack[:len(rc.stack)-1]] *)
Definition pop (rc : ruleCycles) : outcome ruleCycles :=
  obind (slice_to (stack rc) (Z.of_nat (len (stack rc)) - 1))
        (λ s, Returned (mkRuleCycles s)).

(** A run of guard operations, as issued by nested rule invocations. *)
Inductive guardOp :=
  | Push (f : Fingerprint)
  | Pop
  | DetectCycle (f : Fingerprint).

Definition runOp (o : guardOp) (rc : ruleCycles) : outcome ruleCycles :=
  match o with
  | Push f => Returned (push rc f)
  | Pop => pop rc
  | DetectCycle f => Returned rc
  end.

Fixpoint runOps (ops : list guardOp) (rc : ruleCycles) : outcome ruleCycles :=
  match ops with
  | [] => Returned rc
  | o :: rest => obind (runOp o rc) (runOps rest)
  end.

(** Number of unpopped pushes after [ops], starting with [d] of them; [None]
    when some pop has no push left to match. *)
Fixpoint depthAfter (ops : list guardOp) (d : nat) : option nat :=
  match ops with
  | [] => Some d
  | Push _ :: rest => depthAfter rest (S d)
  | Pop :: rest =>
      match d with O => None | S d' => depthAfter rest d' end
  | DetectCycle _ :: rest => depthAfter rest d
  end.

(** Every pop is preceded by a push it matches. *)
Definition disciplined (ops : list guardOp) : bool :=
  bool_decide (is_Some (depthAfter ops 0)).

(** Disciplined, and every push is popped. *)
Definition balanced (ops : list guardOp) : bool :=
  bool_decide (depthAfter ops 0 = Some 0).
End RuleCycles.

(** ** Intern tables *)

(** Modelled from the spec: the intern tables of the [memo] package.
    "If an equal payload (by deep structural equality) was already interned,
    return its existing handle; otherwise store the payload, assign the next
    handle, and return it."  A table is the sequence of stored payloads and a
    handle is a position in it. *)
Section Intern.
Context {P : Type} `{EqDecision P}.

Definition internTable := list P.

Definition handleOf (t : internTable) (p : P) : option nat :=
  fst <$> list_find (λ q, q = p) t.

Definition Intern (t : internTable) (p : P) : N * internTable :=
  match handleOf t p with
  | Some h => (N.of_nat h, t)
  | None => (N.of_nat (length t), t ++ [p])
  end.

Definition internAll (t : internTable) (ps : list P) : internTable :=
  foldl (λ t p, snd (Intern t p)) t ps.
End Intern.
Arguments internTable : clear implicits.

(** ** Datums, types and private values *)

(** Modelled from the spec: the datums of package [tree] reach the factory
    only through [ConstructConstVal], which tells apart the null datum, the
    boolean datums and all the others. *)
Inductive Datum :=
  | DNull
  | DBool (b : bool)
  | DInt (z : Z)
  | DString (s : string).

(** Modelled from the spec: the types of package [types]; the factory names
    [types.Unknown]. *)
Module types.
Inductive T := Unknown | Bool | Int | String.
End types.

(** The dynamic type test of [d] against a pointer to [tree.DBool]. *)
Definition asDBool (d : Datum) : option bool :=
  match d with DBool b => Some b | _ => None end.

(** Modelled from the spec: "operator-specific immutable metadata blocks" and
    "literal scalar values" share one table of private values. *)
Inductive Private :=
  | PrivType (t : types.T)
  | PrivDatum (d : Datum)
  | PrivPlaceholder (idx : N).

#[global] Instance Datum_eq_dec : EqDecision Datum.
Proof. solve_decision. Defined.
#[global] Instance T_eq_dec : EqDecision types.T.
Proof. solve_decision. Defined.
#[global] Instance Private_eq_dec : EqDecision Private.
Proof. solve_decision. Defined.
#[global] Instance Operator_eq_dec : EqDecision Operator.
Proof. solve_decision. Defined.
#[global] Instance Expr_eq_dec : EqDecision Expr.
Proof. solve_decision. Defined.

(** Modelled from the spec: the values bound to the placeholders of a prepared
    statement, which [tree.EvalContext] supplies. *)
Record EvalContext := mkEvalContext { Placeholders : gmap N Datum }.

(** ** The memo *)

(** Modelled from the spec: the derived logical properties of a group, "output
    column set, functional dependencies/keys, not-null columns, cardinality
    bounds". *)
Record LogicalProps := mkLogicalProps {
  OutputCols : list ColumnID;
  NotNullCols : list ColumnID;
  Keys : list (list ColumnID);
  MaxCard : option N;
}.

(** The zero value of the properties. *)
Definition noProps : LogicalProps := mkLogicalProps [] [] [] None.

(** Modelled from the spec: a group holds "an ordered sequence of member
    Expressions (the first member is the canonical representative)" and the
    properties derived from that member. *)
Record Group := mkGroup {
  exprs : list Expr;
  logical : LogicalProps;
}.

(** Modelled from the spec: the memo owns the groups, the fingerprint index
    "fingerprint → Group", the intern tables and the root. *)
Record Memo := mkMemo {
  groups : list Group;
  exprMap : gmap Fingerprint GroupID;
  listStorage : internTable (list GroupID);
  privateStorage : internTable Private;
  root : GroupID;
  rootProps : LogicalProps;
}.

(** Modelled from the spec: [memo.ExprView], what [MemoizeNormExpr] returns:
    the group, read by [ev.Group()], and the position of the expression among
    the members of the group. *)
Record ExprView := mkExprView { evGroup : GroupID; evExpr : ExprOrdinal }.

(** The derivation of logical properties from an expression and the properties
    of its children is domain logic outside the factory. *)
Class PropsBuilder := { deriveProps : Expr → list LogicalProps → LogicalProps }.

Module memo.
(** Modelled from the spec: [Memo.Init], called by [Factory.Init] for "a new,
    blank memo structure". *)
Definition Init (evalCtx : EvalContext) : Memo :=
  mkMemo [] ∅ [] [] 0%N noProps.

(** Modelled from the spec: "the Memo's total Group count". *)
Definition groupCount (m : Memo) : nat := length (groups m).

(** Modelled from the spec: a group id is a position among the groups. *)
Definition lookupGroup (m : Memo) (g : GroupID) : option Group :=
  groups m !! N.to_nat g.

(** Modelled from the spec: [Properties(groupId)], "the cached derived
    properties"; there are none for an id that names no group. *)
Definition Properties (m : Memo) (g : GroupID) : option LogicalProps :=
  logical <$> lookupGroup m g.

(** Modelled from the spec: the canonical member of a group, its first. *)
Definition NormExpr (m : Memo) (g : GroupID) : option Expr :=
  lookupGroup m g ≫= λ grp, head (exprs grp).

(** Modelled from the spec, [MemoizeExpression]: "compute the expr's
    fingerprint; if present in the fingerprint index, return the existing
    Group id (the candidate expr is discarded).  Otherwise allocate a new
    Group containing this expr as its sole member, register the fingerprint,
    compute derived logical properties from this member, and return the new
    Group id." *)
Definition MemoizeNormExpr {builder : PropsBuilder}
    (evalCtx : EvalContext) (m : Memo) (e : Expr) : ExprView * Memo :=
  match exprMap m !! fingerprint e with
  | Some g => (mkExprView g 0%N, m)
  | None =>
      let g := N.of_nat (length (groups m)) in
      let props := deriveProps e (omap (Properties m) (children e)) in
      (mkExprView g 0%N,
       mkMemo (groups m ++ [mkGroup [e] props])
              (<[fingerprint e := g]> (exprMap m))
              (listStorage m) (privateStorage m) (root m) (rootProps m))
  end.

(** Modelled from the spec: [Memo.InternList], interning in the table of
    "ordered lists of group references". *)
Definition InternList (m : Memo) (items : list GroupID) : ListID * Memo :=
  let '(h, t) := Intern (listStorage m) items in
  (h, mkMemo (groups m) (exprMap m) t (privateStorage m) (root m) (rootProps m)).

(** Modelled from the spec: interning in the table of private values. *)
Definition InternPrivate (m : Memo) (p : Private) : PrivateID * Memo :=
  let '(h, t) := Intern (privateStorage m) p in
  (h, mkMemo (groups m) (exprMap m) (listStorage m) t (root m) (rootProps m)).

(** Modelled from the spec: "[SetRoot(groupId, props)] / [RootGroup()]: track
    which Group represents the top of the whole query".  [RootProps()], which
    [AssignPlaceholders] calls, reads back the properties [SetRoot] stored. *)
Definition RootGroup (m : Memo) : GroupID := root m.
Definition RootProps (m : Memo) : LogicalProps := rootProps m.

Definition SetRoot (m : Memo) (g : GroupID) (props : LogicalProps) : Memo :=
  mkMemo (groups m) (exprMap m) (listStorage m) (privateStorage m) g props.
End memo.

(** ** The factory *)

Definition RuleName := string.

Definition MatchedRuleFunc := RuleName → bool.
Definition AppliedRuleFunc := RuleName → GroupID → ExprOrdinal → Z → unit.

(** The [funcs] field only holds a pointer back to the factory and is left
    out; the guard stack is the field [ruleCycles] of the source. *)
Record Factory := mkFactory {
  evalCtx : EvalContext;
  mem : Memo;
  matchedRule : option MatchedRuleFunc;
  appliedRule : option AppliedRuleFunc;
  cycles : ruleCycles;
  scratchItems : slice GroupID;
  scratchColList : slice ColumnID;
}.

(** What an observer of the factory sees happen: the calls made to the two
    callbacks and the runs of the consistency check. *)
Inductive Event :=
  | MatchedRuleCalled (r : RuleName) (proceed : bool)
  | AppliedRuleCalled (r : RuleName) (g : GroupID) (expr : ExprOrdinal) (added : Z)
  | CheckExprCalled (ev : ExprView).

Record State := mkState { fac : Factory; trace : list Event }.

(** Factory methods run on the state and return, panic or run out of budget. *)
Definition M (A : Type) : Type := State → outcome (A * State).

#[global] Instance M_ret : MRet M := λ A a s, Returned (a, s).
#[global] Instance M_bind : MBind M :=
  λ A B k c s, obind (c s) (λ '(a, s'), k a s').

Definition getFactory : M Factory := λ s, Returned (fac s, s).
Definition setFactory (f : Factory) : M unit :=
  λ s, Returned ((), mkState f (trace s)).
Definition emit (e : Event) : M unit :=
  λ s, Returned ((), mkState (fac s) (trace s ++ [e])).
Definition raise {A} (p : panic) : M A := λ _, Panicked p.
Definition outOfFuel {A} : M A := λ _, OutOfFuel.
Definition liftOutcome {A} (o : outcome A) : M A :=
  λ s, obind o (λ a, Returned (a, s)).

Definition withMem (f : Factory) (m : Memo) : Factory :=
  mkFactory (evalCtx f) m (matchedRule f) (appliedRule f) (cycles f)
            (scratchItems f) (scratchColList f).
Definition withCycles (f : Factory) (rc : ruleCycles) : Factory :=
  mkFactory (evalCtx f) (mem f) (matchedRule f) (appliedRule f) rc
            (scratchItems f) (scratchColList f).

Definition setMem (m : Memo) : M unit :=
  f ← getFactory; setFactory (withMem f m).
Definition setCycles (rc : ruleCycles) : M unit :=
  f ← getFactory; setFactory (withCycles f rc).

(** The replacement logic of a rule: it builds expressions through the
    factory, interns payloads, reads the memo, and ends with a group. *)
Inductive Replace :=
  | Result (g : GroupID)
  | NewExpr (e : Expr) (k : GroupID → Replace)
  | NewList (items : list GroupID) (k : ListID → Replace)
  | NewPrivate (p : Private) (k : PrivateID → Replace)
  | Inspect (k : Memo → Replace).

Record Rule := mkRule {
  ruleName : RuleName;
  detectCycles : bool;
  matchRule : Memo → Expr → option Replace;
}.

(** The rule catalog and the body of the consistency check are not part of
    [factory.go]; [RaceEnabled] is the build constant [util.RaceEnabled]. *)
Class NormEnv := {
  rules : Operator → list Rule;
  checkExpr : Factory → ExprView → option string;
}.

Class Build := { RaceEnabled : bool }.

Definition releaseBuild : Build := {| RaceEnabled := false |}.
Definition checkedBuild : Build := {| RaceEnabled := true |}.

Section Factory.
Context {runtime : GoRuntime} {builder : PropsBuilder}
        {env : NormEnv} {build : Build}.

(** [Factory.Init]: the evaluation context is stored, the memo is blank, both
    callbacks are nil and the guard is re-initialized; the scratch slices are
    not assigned. *)
Definition Init (evalCtx : EvalContext) : M unit :=
  f ← getFactory;
  rc ← liftOutcome (init (cycles f));
  setFactory (mkFactory evalCtx (memo.Init evalCtx) None None rc
                        (scratchItems f) (scratchColList f)).

(** [f.matchedRule = matchedRule]; a nil callback is [None]. *)
Definition NotifyOnMatchedRule (matchedRule : option MatchedRuleFunc) : M unit :=
  f ← getFactory;
  setFactory (mkFactory (evalCtx f) (mem f) matchedRule (appliedRule f)
                        (cycles f) (scratchItems f) (scratchColList f)).

(** [f.appliedRule = appliedRule] *)
Definition NotifyOnAppliedRule (appliedRule : option AppliedRuleFunc) : M unit :=
  f ← getFactory;
  setFactory (mkFactory (evalCtx f) (mem f) (matchedRule f) appliedRule
                        (cycles f) (scratchItems f) (scratchColList f)).

(** [f.NotifyOnMatchedRule(func(opt.RuleName) bool { return false })] *)
Definition DisableOptimizations : M unit :=
  NotifyOnMatchedRule (Some (λ _, false)).

(** [return f.mem.InternList(items)] *)
Definition InternList (items : list GroupID) : M ListID :=
  f ← getFactory;
  let '(h, m) := memo.InternList (mem f) items in
  setMem m;; mret h.

(** Modelled from the spec: [InternType] and [InternDatum] are generated
    methods that intern a private value in the memo, as [InternList] does for
    a list. *)
Definition InternType (t : types.T) : M PrivateID :=
  f ← getFactory;
  let '(h, m) := memo.InternPrivate (mem f) (PrivType t) in
  setMem m;; mret h.

Definition InternDatum (d : Datum) : M PrivateID :=
  f ← getFactory;
  let '(h, m) := memo.InternPrivate (mem f) (PrivDatum d) in
  setMem m;; mret h.

(** The call [f.checkExpr(ev)]: a failed check aborts the construction. *)
Definition runCheckExpr (ev : ExprView) : M unit :=
  f ← getFactory;
  emit (CheckExprCalled ev);;
  match checkExpr f ev with
  | Some msg => raise (ConsistencyCheckFailed msg)
  | None => mret ()
  end.

(** [ev := f.mem.MemoizeNormExpr(f.evalCtx, e)], then [f.checkExpr(ev)] if
    [util.RaceEnabled], then [return ev.Group()]. *)
Definition onConstruct (e : Expr) : M GroupID :=
  f ← getFactory;
  let '(ev, m) := memo.MemoizeNormExpr (evalCtx f) (mem f) e in
  setMem m;;
  (if RaceEnabled then runCheckExpr ev else mret ());;
  mret (evGroup ev).

(** *** The construction protocol *)

(** Modelled from the spec: the generated [Construct] methods are not part
    of [factory.go].  The steps below are those of the construction and
    normalization protocol.  The candidate rules of the operator are tried in
    their fixed order.  A rule that matches and is tagged for cycle detection
    is treated as not matching when the fingerprint of the expression is on
    the guard stack.  The "rule matched" callback is consulted for a rule that
    has matched (the comment on [MatchedRuleFunc] in [factory.go]: "invoked
    each time an optimization rule has been matched"), and a false answer
    skips the rule.  The spec lists the callback before the match and the
    guard after it, and [factory.go] does not say which of the two a matching
    rule meets first; here it meets the guard first.  A rule that fires and is tagged runs between a push and a
    pop of that fingerprint; its replacement is built by recursive
    constructions; the "rule applied" callback is then told.  An expression no
    rule rewrites goes to [onConstruct]. *)

(** Modelled from the spec: the call of the "rule matched" callback; with no
    callback installed every rule is let through. *)
Definition ruleEnabled (r : RuleName) : M bool :=
  f ← getFactory;
  match matchedRule f with
  | None => mret true
  | Some callback =>
      emit (MatchedRuleCalled r (callback r));; mret (callback r)
  end.

(** Modelled from the spec: the "rule applied" notification, sent only when a
    callback is installed. *)
Definition notifyApplied (r : RuleName) (g : GroupID) : M unit :=
  f ← getFactory;
  match appliedRule f with
  | None => mret ()
  | Some _ => emit (AppliedRuleCalled r g 0%N 0%Z)
  end.

(** The calls [f.ruleCycles.push(fp)] and [f.ruleCycles.pop()] of a guarded
    rule. *)
Definition pushCycle (fp : Fingerprint) : M unit :=
  f ← getFactory; setCycles (push (cycles f) fp).

Definition popCycle : M unit :=
  f ← getFactory; rc ← liftOutcome (pop (cycles f)); setCycles rc.

(** Modelled from the spec: running the replacement logic of a rule, "which
    itself may call Construct recursively, any number of times". *)
Fixpoint runReplace (construct : Expr → M GroupID) (r : Replace) : M GroupID :=
  match r with
  | Result g => mret g
  | NewExpr e k => g ← construct e; runReplace construct (k g)
  | NewList items k => h ← InternList items; runReplace construct (k h)
  | NewPrivate p k =>
      f ← getFactory;
      let '(h, m) := memo.InternPrivate (mem f) p in
      setMem m;; runReplace construct (k h)
  | Inspect k => f ← getFactory; runReplace construct (k (mem f))
  end.

(** Modelled from the spec: a rule that fires.  "Push the fingerprint, invoke
    the rule's replacement logic, then Pop unconditionally afterward", for a
    rule tagged for cycle detection. *)
Definition fireRule (construct : Expr → M GroupID)
    (r : Rule) (e : Expr) (replacement : Replace) : M GroupID :=
  (if detectCycles r then pushCycle (fingerprint e) else mret ());;
  g ← runReplace construct replacement;
  (if detectCycles r then popCycle else mret ());;
  notifyApplied (ruleName r) g;;
  mret g.

(** Whether rule [r] matches [e] in the eyes of the protocol: its pattern
    matches and, when it is tagged, the guard detects no cycle. *)
Definition ruleMatches (f : Factory) (e : Expr) (r : Rule) : bool :=
  bool_decide (is_Some (matchRule r (mem f) e))
  && negb (detectCycles r && detectCycle (cycles f) (fingerprint e)).

(** Modelled from the spec: the loop over the candidate rules of an
    operator. *)
Fixpoint tryRules (construct : Expr → M GroupID)
    (e : Expr) (candidates : list Rule) : M GroupID :=
  match candidates with
  | [] => onConstruct e
  | r :: rest =>
      f ← getFactory;
      match matchRule r (mem f) e with
      | None => tryRules construct e rest
      | Some replacement =>
          if detectCycles r && detectCycle (cycles f) (fingerprint e)
          then tryRules construct e rest
          else
            enabled ← ruleEnabled (ruleName r);
            if enabled : bool then fireRule construct r e replacement
            else tryRules construct e rest
      end
  end.

(** Modelled from the spec: [Construct(operatorTag, operatorData,
    childGroupIds...)].  [fuel] bounds the depth of the recursion through rule
    replacements. *)
Fixpoint Construct (fuel : nat) (e : Expr) : M GroupID :=
  match fuel with
  | O => outOfFuel
  | S fuel' => tryRules (Construct fuel') e (rules (op e))
  end.

(** Modelled from the spec: the generated construction methods of the
    constant operators are [Construct] at that operator tag, with the private
    value as operator data and no children. *)
Definition ConstructNull (fuel : nat) (typ : PrivateID) : M GroupID :=
  Construct fuel (mkExpr NullOp [typ] []).
Definition ConstructTrue (fuel : nat) : M GroupID :=
  Construct fuel (mkExpr TrueOp [] []).
Definition ConstructFalse (fuel : nat) : M GroupID :=
  Construct fuel (mkExpr FalseOp [] []).
Definition ConstructConst (fuel : nat) (value : PrivateID) : M GroupID :=
  Construct fuel (mkExpr ConstOp [value] []).

(** *** Convenience construction methods *)

(** The three tests of [ConstructConstVal], in the order of the source:
    [d == tree.DNull], then the type test for a boolean datum and the test of
    its value, then every other datum. *)
Definition ConstructConstVal (fuel : nat) (d : Datum) : M GroupID :=
  if decide (d = DNull) then
    typ ← InternType types.Unknown; ConstructNull fuel typ
  else
    match asDBool d with
    | Some boolVal =>
        if boolVal then ConstructTrue fuel else ConstructFalse fuel
    | None =>
        value ← InternDatum d; ConstructConst fuel value
    end.

(** *** Placeholder rebinding *)

(** Running a method on each element of a list, in order. *)
Fixpoint mapM {A B} (f : A → M B) (l : list A) : M (list B) :=
  match l with
  | [] => mret []
  | a :: rest => b ← f a; bs ← mapM f rest; mret (b :: bs)
  end.

(** Modelled from the spec: the value the caller supplied for the placeholder
    a leaf refers to, if any. *)
Definition placeholderValue (f : Factory) (e : Expr) : option Datum :=
  match private e with
  | [h] =>
      match privateStorage (mem f) !! N.to_nat h with
      | Some (PrivPlaceholder idx) => Placeholders (evalCtx f) !! idx
      | _ => None
      end
  | _ => None
  end.

(** Modelled from the spec: the walk of [assignPlaceholders] is generated
    code.  A placeholder leaf with a bound value is replaced by the
    construction of that literal, and every node above a replaced leaf is
    rebuilt through [Construct] with the new child groups; a subtree without
    a replaced leaf keeps its group. *)
Fixpoint assignPlaceholders (fuel : nat) (group : GroupID) : M GroupID :=
  match fuel with
  | O => outOfFuel
  | S fuel' =>
      f ← getFactory;
      match memo.NormExpr (mem f) group with
      | None => raise (InvalidGroup group)
      | Some e =>
          if decide (op e = PlaceholderOp) then
            match placeholderValue f e with
            | Some d => ConstructConstVal fuel' d
            | None => mret group
            end
          else
            kids ← mapM (assignPlaceholders fuel') (children e);
            if decide (kids = children e) then mret group
            else Construct fuel' (mkExpr (op e) (private e) kids)
      end
  end.

(** [root := f.assignPlaceholders(f.Memo().RootGroup())], then
    [f.Memo().SetRoot(root, f.Memo().RootProps())]: the second argument is
    read from the memo after the walk. *)
Definition AssignPlaceholders (fuel : nat) : M unit :=
  f ← getFactory;
  root ← assignPlaceholders fuel (memo.RootGroup (mem f));
  f' ← getFactory;
  setMem (memo.SetRoot (mem f') root (memo.RootProps (mem f'))).
End Factory.

(** The callback calls seen when every rule of [rs] that matches [e] is
    refused in turn. *)
Definition skipEvents (f : Factory) (e : Expr) (rs : list Rule) : list Event :=
  omap (λ r, if ruleMatches f e r
             then Some (MatchedRuleCalled (ruleName r) false) else None) rs.

(** What a construction leaves alone: the evaluation context, the callbacks,
    the fingerprints on the guard stack and the root of the memo. *)
Definition frame (s : State) :=
  (evalCtx (fac s), matchedRule (fac s), appliedRule (fac s),
   onStack (cycles (fac s)), root (mem (fac s)), rootProps (mem (fac s))).

Definition keeps {A} (c : M A) : Prop :=
  ∀ s a s', c s = Returned (a, s') → frame s' = frame s.

(** ** Calls on the guard, with their answers *)

(** The four methods of [ruleCycles], as calls a user of the guard makes. *)
Inductive guardCall :=
  | CallInit
  | CallPush (f : Fingerprint)
  | CallPop
  | CallDetectCycle (f : Fingerprint).

Section GuardCalls.
Context {runtime : GoRuntime}.

(** One call on the guard; a [detectCycle] call yields its answer. *)
Definition runCall (c : guardCall) (rc : ruleCycles)
  : outcome (list bool * ruleCycles) :=
  match c with
  | CallInit => obind (init rc) (λ rc', Returned ([], rc'))
  | CallPush f => Returned ([], push rc f)
  | CallPop => obind (pop rc) (λ rc', Returned ([], rc'))
  | CallDetectCycle f => Returned ([detectCycle rc f], rc)
  end.

(** A sequence of calls, with the answers of its [detectCycle] calls in
    order; a panic ends the sequence. *)
Fixpoint runCalls (cs : list guardCall) (rc : ruleCycles)
  : outcome (list bool * ruleCycles) :=
  match cs with
  | [] => Returned ([], rc)
  | c :: rest =>
      obind (runCall c rc) (λ '(answers, rc'),
        obind (runCalls rest rc') (λ '(more, rc''),
          Returned (answers ++ more, rc'')))
  end.

(** Pushing a list of fingerprints, first to last. *)
Definition pushAll (rc : ruleCycles) (fps : list Fingerprint) : ruleCycles :=
  foldl push rc fps.
End GuardCalls.

(** The stack the comments of [ruleCycles] describe, as a plain list with the
    last fingerprint pushed at its end: the reference the slice code is
    compared with.  [None] stands for a pop with nothing to remove. *)
Definition listCall (c : guardCall) (l : list Fingerprint)
  : option (list bool * list Fingerprint) :=
  match c with
  | CallInit => Some ([], [])
  | CallPush f => Some ([], l ++ [f])
  | CallPop => if decide (l = []) then None else Some ([], removelast l)
  | CallDetectCycle f => Some ([bool_decide (f ∈ l)], l)
  end.

Fixpoint listCalls (cs : list guardCall) (l : list Fingerprint)
  : option (list bool * list Fingerprint) :=
  match cs with
  | [] => Some ([], l)
  | c :: rest =>
      '(answers, l') ← listCall c l;
      '(more, l'') ← listCalls rest l';
      Some (answers ++ more, l'')
  end.

(** ** Invariants of the memo and of the trace *)

(** The fingerprint index and the groups agree: every entry of the index
    leads to a group whose canonical member has that fingerprint, and the
    canonical member of every group is entered in the index under that
    group. *)
Definition memo_wf (m : Memo) : Prop :=
  (∀ fp g, exprMap m !! fp = Some g →
           ∃ e, memo.NormExpr m g = Some e ∧ fingerprint e = fp)
  ∧ (∀ g e, memo.NormExpr m g = Some e → exprMap m !! fingerprint e = Some g).

(** The memo only grows: groups, index entries and interned payloads stay
    where they are. *)
Definition grows (m m' : Memo) : Prop :=
  groups m `prefix_of` groups m'
  ∧ exprMap m ⊆ exprMap m'
  ∧ listStorage m `prefix_of` listStorage m'
  ∧ privateStorage m `prefix_of` privateStorage m'.

(** A relation that holds between the state a method starts in and every
    state it returns in. *)
Definition steps {A} (R : State → State → Prop) (c : M A) : Prop :=
  ∀ s a s', c s = Returned (a, s') → R s s'.

(** The events a factory with these callbacks may produce: a "rule matched"
    call carries the answer of the installed callback, a "rule applied" call
    needs an installed callback and a rule the "rule matched" callback, if
    any, lets through, and the check only runs in a race-enabled build. *)
Definition okEvent {build : Build}
    (matched : option MatchedRuleFunc) (applied : option AppliedRuleFunc)
    (ev : Event) : Prop :=
  match ev with
  | MatchedRuleCalled r proceed => ∃ callback, matched = Some callback ∧ proceed = callback r
  | AppliedRuleCalled r _ _ _ =>
      is_Some applied ∧ ∀ callback, matched = Some callback → callback r = true
  | CheckExprCalled _ => RaceEnabled = true
  end.

(** Between the state a construction starts in and a state it returns in, the
    memo has grown and is well formed if it was. *)
Definition memoRel (s s' : State) : Prop :=
  grows (mem (fac s)) (mem (fac s'))
  ∧ (memo_wf (mem (fac s)) → memo_wf (mem (fac s'))).

(** ** Calls on the factory *)

(** The methods of [Factory] a client calls, in any order. *)
Inductive factoryCall :=
  | CallFactoryInit (evalCtx : EvalContext)
  | CallDisableOptimizations
  | CallNotifyOnMatchedRule (matchedRule : option MatchedRuleFunc)
  | CallNotifyOnAppliedRule (appliedRule : option AppliedRuleFunc)
  | CallInternList (items : list GroupID)
  | CallConstruct (e : Expr)
  | CallConstructConstVal (d : Datum)
  | CallAssignPlaceholders.

Definition isFactoryInit (c : factoryCall) : bool :=
  match c with CallFactoryInit _ => true | _ => false end.

Section FactoryCalls.
Context {runtime : GoRuntime} {builder : PropsBuilder}
        {env : NormEnv} {build : Build}.

Definition runFactoryCall (fuel : nat) (c : factoryCall) : M unit :=
  match c with
  | CallFactoryInit evalCtx => Init evalCtx
  | CallDisableOptimizations => DisableOptimizations
  | CallNotifyOnMatchedRule matchedRule => NotifyOnMatchedRule matchedRule
  | CallNotifyOnAppliedRule appliedRule => NotifyOnAppliedRule appliedRule
  | CallInternList items => InternList items;; mret ()
  | CallConstruct e => Construct fuel e;; mret ()
  | CallConstructConstVal d => ConstructConstVal fuel d;; mret ()
  | CallAssignPlaceholders => AssignPlaceholders fuel
  end.

Fixpoint runFactoryCalls (fuel : nat) (cs : list factoryCall) : M unit :=
  match cs with
  | [] => mret ()
  | c :: rest => runFactoryCall fuel c;; runFactoryCalls fuel rest
  end.
End FactoryCalls.

(** Between the state a construction starts in and a state it returns in, the
    callbacks are the same and the trace has only gained events those
    callbacks and the build allow. *)
Definition traceRel {build : Build} (s s' : State) : Prop :=
  matchedRule (fac s') = matchedRule (fac s)
  ∧ appliedRule (fac s') = appliedRule (fac s)
  ∧ ∃ new, trace s' = trace s ++ new
           ∧ Forall (okEvent (matchedRule (fac s)) (appliedRule (fac s))) new.

(** ** The expression [ConstructConstVal] builds *)

(** The private value [ConstructConstVal] interns for a datum: the [Unknown]
    type for the null datum, nothing for a boolean, the datum otherwise. *)
Definition constPrivate (d : Datum) : option Private :=
  if decide (d = DNull) then Some (PrivType types.Unknown)
  else match asDBool d with
       | Some _ => None
       | None => Some (PrivDatum d)
       end.

(** The constant expression for a datum, given the handle of its private
    value. *)
Definition constExpr (d : Datum) (h : PrivateID) : Expr :=
  if decide (d = DNull) then mkExpr NullOp [h] []
  else match asDBool d with
       | Some true => mkExpr TrueOp [] []
       | Some false => mkExpr FalseOp [] []
       | None => mkExpr ConstOp [h] []
       end.

(** ** The reduction command ([pkg/cmd/reduce/main.go]) *)

Module reducecmd.
(** [strings.HasSuffix]: [len(s) >= len(suffix)] and the last [len(suffix)]
    bytes of [s] are [suffix]. *)
Definition HasSuffix (s suffix : string) : bool :=
  (String.length suffix <=? String.length s)
  && String.eqb (substring (String.length s - String.length suffix)
                           (String.length suffix) s) suffix.

(** The errors the closure [interesting] tells apart by their dynamic type:
    none, an [exec.Error] (whose cause is [exec.ErrNotFound] or not), an
    [os.PathError], and every other error, such as a non-zero exit status. *)
Inductive runError :=
  | NoError
  | ExecError (notFound : bool)
  | PathError
  | OtherError.

(** [log.Fatal] ends the process; otherwise the closure answers. *)
Inductive verdict :=
  | Fatal
  | Verdict (matched : bool).

(** The command [exec.Command(path, "demo")] with its standard input. *)
Record Cmd := mkCmd { Name : string; Args : list string; Stdin : string }.

(** [sql := string(f); if !strings.HasSuffix(sql, ";") { sql += ";" }] *)
Definition sqlInput (f : string) : string :=
  if negb (HasSuffix f ";") then String.append f ";" else f.

Section Interesting.
(** Running the command and matching the compiled expression are the
    operating system's and the [regexp] package's. *)
Variable CombinedOutput : Cmd → string * runError.
Variable Match : string → bool.

Definition interesting (path : string) (f : string) : verdict :=
  let cmd := mkCmd path ["demo"] (sqlInput f) in
  let '(out, err) := CombinedOutput cmd in
  match err with
  | ExecError true => Fatal
  | PathError => Fatal
  | _ => Verdict (Match out)
  end.
End Interesting.
End reducecmd.

(** ** Rules that decide alike while the memo grows *)







(** A runtime that doubles the capacity of a slice it has to grow, and the
    empty guard, used to run the definitions on concrete inputs. *)
Definition doublingRuntime : GoRuntime :=
  {| growcap old needed := Nat.max (2 * old) needed |}.

Definition emptyGuard : ruleCycles := mkRuleCycles nil_slice.


(** A properties builder that gathers the columns of the children and bounds a
    constant to one row. *)
Definition sampleBuilder : PropsBuilder :=
  {| deriveProps e kids :=
       mkLogicalProps (concat (OutputCols <$> kids)) [] []
         match op e with
         | NullOp | TrueOp | FalseOp | ConstOp => Some 1%N
         | _ => None
         end |}.

(** An empty rule catalog with a check that always passes. *)
Definition noRules : NormEnv :=
  {| rules _ := []; checkExpr _ _ := None |}.

Definition noPlaceholders : EvalContext := mkEvalContext ∅.

(** A factory right after its first [Init]. *)
Definition blankFactory : Factory :=
  mkFactory noPlaceholders (memo.Init noPlaceholders) None None emptyGuard
            nil_slice nil_slice.

Definition blankState : State := mkState blankFactory [].

(** A prepared statement whose whole tree is one placeholder, [$0], with the
    value [true] bound to it.  The memo is filled through the factory, and its
    root carries the logical properties of the placeholder's group. *)
Definition boundPlaceholder : EvalContext :=
  mkEvalContext {[ 0%N := DBool true ]}.

Definition prepare : M unit :=
  Init boundPlaceholder;;
  f ← getFactory;
  let '(h, m) := memo.InternPrivate (mem f) (PrivPlaceholder 0) in
  setMem m;;
  g ← Construct (runtime:=doublingRuntime) (builder:=sampleBuilder)
         (env:=noRules) (build:=releaseBuild) 1 (mkExpr PlaceholderOp [h] []);
  f ← getFactory;
  setMem (memo.SetRoot (mem f) g (default noProps (memo.Properties (mem f) g))).

Definition preparedState : State :=
  match prepare blankState with
  | Returned (_, s) => s
  | _ => blankState
  end.

(** Two rules that rewrite each other's output, both tagged for cycle
    detection: [FlipUp] turns operator 1 into operator 2 over the same
    children, and [FlipDown] turns it back. *)
Definition flipTo (tag : N) (e : Expr) : Replace :=
  NewExpr (mkExpr (OtherOp tag) (private e) (children e)) Result.

Definition flipRules : NormEnv :=
  {| rules o :=
       if decide (o = OtherOp 1) then
         [mkRule "FlipUp" true (λ _ e, Some (flipTo 2 e))]
       else if decide (o = OtherOp 2) then
         [mkRule "FlipDown" true (λ _ e, Some (flipTo 1 e))]
       else [];
     checkExpr _ _ := None |}.

(** A factory that reports the rules it applies. *)
Definition tracingState : State :=
  mkState (mkFactory noPlaceholders (memo.Init noPlaceholders) None
                     (Some (λ _ _ _ _, ())) emptyGuard nil_slice nil_slice) [].

(** A session on a factory: reset, build, intern, disable the rules, build
    again, bind the placeholders. *)
Definition sampleSession : list factoryCall :=
  [CallFactoryInit boundPlaceholder;
   CallConstructConstVal (DInt 7);
   CallConstruct (mkExpr (OtherOp 1) [] [0%N]);
   CallInternList [0%N; 1%N];
   CallDisableOptimizations;
   CallConstruct (mkExpr (OtherOp 2) [] [0%N]);
   CallConstructConstVal DNull;
   CallAssignPlaceholders].

(** A factory that reports the rules it applies and lets every rule through
    but [FlipDown]. *)
Definition selectiveState : State :=
  mkState (mkFactory noPlaceholders (memo.Init noPlaceholders)
                     (Some (λ r, bool_decide (r ≠ "FlipDown")))
                     (Some (λ _ _ _ _, ())) emptyGuard nil_slice nil_slice) [].

(** A blank factory with the optimizations disabled. *)
Definition disabledState : State :=
  mkState (mkFactory noPlaceholders (memo.Init noPlaceholders)
                     (Some (λ _, false)) None emptyGuard nil_slice nil_slice) [].

(** A factory in the middle of a guarded rule on operator 1 over group 5. *)
Definition inFlightState : State :=
  mkState (mkFactory noPlaceholders (memo.Init noPlaceholders) None
                     (Some (λ _ _ _ _, ()))
                     (mkRuleCycles (mk_slice
                        [fingerprint (mkExpr (OtherOp 1) [] [5%N])] []))
                     nil_slice nil_slice) [].



(** * Properties *)

(** ** Slices and the guard stack *)

Section SliceFacts.
Context {A : Type}.
Implicit Types (s : slice A) (l : list A).

Lemma elems_append zero grow s x :
  elems (append zero grow s x) = elems s ++ [x].
Proof. by destruct s as [|live [|y spare]]. Qed.

Lemma slice_to_drop_last (live spare : list A) (x : A) :
  slice_to (mk_slice (live ++ [x]) spare)
           (Z.of_nat (length (live ++ [x])) - 1)
  = Returned (mk_slice live (x :: spare)).
Proof.
  unfold slice_to, cap; simpl.
  rewrite !length_app; simpl.
  rewrite bool_decide_true by lia.
  replace (Z.to_nat _) with (length live) by lia.
  rewrite <-app_assoc.
  by rewrite take_app_length, drop_app_length.
Qed.

Lemma slice_to_negative s hi :
  (hi < 0)%Z → slice_to s hi = Panicked (SliceBoundsOutOfRange hi (cap s)).
Proof. intros. unfold slice_to. by rewrite bool_decide_false by lia. Qed.

Lemma slice_to_zero s :
  slice_to s 0
  = Returned (if is_nil s then nil_slice else mk_slice [] (array s)).
Proof.
  unfold slice_to. rewrite bool_decide_true by lia.
  by destruct s.
Qed.
End SliceFacts.

Section GuardFacts.
Context {runtime : GoRuntime}.
Implicit Types (rc : ruleCycles) (fp : Fingerprint) (ops : list guardOp).

Lemma detectCycle_range_elem (l : list Fingerprint) fp :
  detectCycle_range l fp = true ↔ fp ∈ l.
Proof.
  induction l as [|existing rest IH]; simpl.
  - split; [done | by intros ?%elem_of_nil].
  - rewrite elem_of_cons. destruct (decide (existing = fp)) as [->|Hne].
    + split; [by left | done].
    + rewrite IH. split; [by right | by intros [?|?]].
Qed.

Lemma onStack_push rc fp : onStack (push rc fp) = onStack rc ++ [fp].
Proof. apply elems_append. Qed.

Lemma pop_snoc rc l x :
  onStack rc = l ++ [x] →
  ∃ rc', pop rc = Returned rc' ∧ onStack rc' = l.
Proof.
  destruct rc as [[|live spare]]; unfold onStack, pop; simpl.
  - intros Hnil. by destruct l.
  - intros ->. unfold len; simpl. rewrite slice_to_drop_last. simpl. eauto.
Qed.

Lemma pop_empty rc :
  onStack rc = [] →
  pop rc = Panicked (SliceBoundsOutOfRange (-1) (cap (stack rc))).
Proof.
  unfold onStack, pop, len. intros Hst. rewrite Hst.
  by rewrite slice_to_negative.
Qed.

(** Running guard operations only touches the part of the stack above the
    level the run started at. *)
Lemma runOps_depth ops : ∀ d d' rc base top,
  depthAfter ops d = Some d' →
  onStack rc = base ++ top → length top = d →
  ∃ rc' top', runOps ops rc = Returned rc'
              ∧ onStack rc' = base ++ top' ∧ length top' = d'.
Proof.
  induction ops as [|[fp| |fp] rest IH]; intros d d' rc base top Hd Hst Hlen; simpl in *.
  - exists rc, top. by simplify_eq.
  - eapply (IH _ _ _ base (top ++ [fp])); [done | |].
    + by rewrite onStack_push, Hst, app_assoc.
    + rewrite length_app; simpl; lia.
  - destruct d as [|d0]; [done|].
    destruct (decide (top = [])) as [->|Hne]; [done|].
    apply exists_last in Hne as (top0 & x & ->).
    rewrite length_app in Hlen; simpl in Hlen.
    destruct (pop_snoc rc (base ++ top0) x) as (rc1 & -> & Hst1).
    { by rewrite Hst, app_assoc. }
    simpl. eapply IH; [done..|lia].
  - by eapply IH.
Qed.
End GuardFacts.

(** C2.  [detectCycle] answers true exactly when the fingerprint is equal to
    one of the fingerprints on the stack; on an empty stack, nil or not, it
    answers false for every fingerprint. *)
Theorem detectCycle_iff_on_stack (rc : ruleCycles) (fp : Fingerprint) :
  (detectCycle rc fp = true ↔ fp ∈ onStack rc)
  ∧ detectCycle (mkRuleCycles nil_slice) fp = false
  ∧ ∀ spare, detectCycle (mkRuleCycles (mk_slice [] spare)) fp = false.
Proof.
  split; [apply detectCycle_range_elem | done].
Qed.

(** C3.  A push followed by a pop returns and leaves on the stack exactly the
    fingerprints that were there before; hence a balanced run of guard
    operations, where every push is matched by a later pop, returns with the
    stack it started from, and with an empty stack when started on an empty
    one. *)
Theorem push_pop_symmetric {runtime : GoRuntime}
    (rc : ruleCycles) (fp : Fingerprint) (ops : list guardOp) :
  balanced ops = true →
  (∃ rc', pop (push rc fp) = Returned rc' ∧ onStack rc' = onStack rc)
  ∧ (∃ rc', runOps ops rc = Returned rc' ∧ onStack rc' = onStack rc)
  ∧ (∃ rc', runOps ops emptyGuard = Returned rc' ∧ onStack rc' = []).
Proof.
  intros Hbal%bool_decide_eq_true.
  split; [|split].
  - apply (pop_snoc _ (onStack rc) fp), onStack_push.
  - destruct (runOps_depth ops 0 0 rc (onStack rc) []) as (rc' & top' & ? & Hst & Hlen);
      [done | by rewrite app_nil_r | done |].
    apply nil_length_inv in Hlen as ->. rewrite app_nil_r in Hst. eauto.
  - destruct (runOps_depth ops 0 0 emptyGuard [] []) as (rc' & top' & ? & Hst & Hlen);
      [done..|].
    apply nil_length_inv in Hlen as ->. eauto.
Qed.

Lemma push_pop_symmetric_witness :
  let ops := [Push [1%N]; DetectCycle [1%N]; Push [2%N]; Pop; Pop] in
  let rc := mkRuleCycles (mk_slice [[7%N]] [[9%N]]) in
  (∃ rc', pop (push (runtime:=doublingRuntime) rc [3%N]) = Returned rc'
          ∧ onStack rc' = onStack rc)
  ∧ (∃ rc', runOps (runtime:=doublingRuntime) ops rc = Returned rc'
            ∧ onStack rc' = onStack rc)
  ∧ (∃ rc', runOps (runtime:=doublingRuntime) ops emptyGuard = Returned rc'
            ∧ onStack rc' = []).
Proof.
  exact (push_pop_symmetric (runtime:=doublingRuntime)
           (mkRuleCycles (mk_slice [[7%N]] [[9%N]])) [3%N]
           [Push [1%N]; DetectCycle [1%N]; Push [2%N]; Pop; Pop] eq_refl).
Defined.

(** C8.  [pop] needs a fingerprint on the stack: on an empty stack the slice
    expression is out of bounds and the call panics, on any other stack it
    returns.  A run of guard operations in which every pop comes after a push
    it matches never reaches the panic. *)
Theorem pop_needs_nonempty_stack {runtime : GoRuntime}
    (rc : ruleCycles) (ops : list guardOp) :
  disciplined ops = true →
  (onStack rc = [] ↔
     pop rc = Panicked (SliceBoundsOutOfRange (-1) (cap (stack rc))))
  ∧ (onStack rc ≠ [] ↔ returns (pop rc))
  ∧ returns (runOps ops rc).
Proof.
  intros [d' Hd]%bool_decide_eq_true.
  split; [|split].
  - split; [apply pop_empty|].
    intros Hp. destruct (decide (onStack rc = [])) as [|Hne]; [done|].
    apply exists_last in Hne as (l & x & Hst).
    destruct (pop_snoc rc l x Hst) as (? & Hret & _). congruence.
  - split.
    + intros (l & x & Hst)%exists_last.
      destruct (pop_snoc rc l x Hst) as (rc' & ? & _). by exists rc'.
    + intros [rc' Hret] Hst. rewrite (pop_empty rc Hst) in Hret. done.
  - destruct (runOps_depth ops 0 d' rc (onStack rc) []) as (rc' & ? & ? & _);
      [done | by rewrite app_nil_r | done |].
    by exists rc'.
Qed.

Lemma pop_needs_nonempty_stack_witness :
  let ops := [Push [1%N]; Push [2%N]; Pop; DetectCycle [1%N]; Push [1%N]] in
  (onStack emptyGuard = [] ↔
     pop emptyGuard = Panicked (SliceBoundsOutOfRange (-1) (cap (stack emptyGuard))))
  ∧ (onStack emptyGuard ≠ [] ↔ returns (pop emptyGuard))
  ∧ returns (runOps (runtime:=doublingRuntime) ops emptyGuard).
Proof.
  exact (pop_needs_nonempty_stack (runtime:=doublingRuntime) emptyGuard
           [Push [1%N]; Push [2%N]; Pop; DetectCycle [1%N]; Push [1%N]] eq_refl).
Defined.

(** ** Factory methods as state transformers *)

Lemma bind_unfold {A B} (c : M A) (k : A → M B) (s : State) :
  (c ≫= k) s = obind (c s) (λ '(a, s'), k a s').
Proof. reflexivity. Qed.

Lemma bind_returned {A B} (c : M A) (k : A → M B) (s : State) b s' :
  (c ≫= k) s = Returned (b, s') →
  ∃ a s1, c s = Returned (a, s1) ∧ k a s1 = Returned (b, s').
Proof.
  rewrite bind_unfold. destruct (c s) as [[a s1]| |]; simpl; [eauto | done..].
Qed.


Ltac unfold_M :=
  unfold mbind, M_bind, mret, M_ret, getFactory, setMem, setCycles, setFactory,
    emit, raise, outOfFuel, liftOutcome in *; simpl in *.

(** ** Fingerprints *)

Lemma opCode_inj (o1 o2 : Operator) : opCode o1 = opCode o2 → o1 = o2.
Proof. destruct o1, o2; simpl; intros; try lia; f_equal; lia. Qed.

(** The encoding is canonical: equal fingerprints come from equal
    expressions only. *)
Lemma fingerprint_inj (e1 e2 : Expr) :
  fingerprint e1 = fingerprint e2 → e1 = e2.
Proof.
  destruct e1 as [o1 p1 c1], e2 as [o2 p2 c2]. unfold fingerprint; simpl.
  intros [= Hop%opCode_inj Hlen%Nat2N.inj Happ].
  apply app_inj_1 in Happ as [-> ->]; [|done]. by subst.
Qed.

(** ** The memo's fingerprint index *)

Section MemoFacts.
Context {builder : PropsBuilder}.
Implicit Types (m : Memo) (e : Expr) (ctx : EvalContext).

Lemma memoize_indexed ctx m e ev m' :
  memo.MemoizeNormExpr ctx m e = (ev, m') →
  exprMap m' !! fingerprint e = Some (evGroup ev).
Proof.
  unfold memo.MemoizeNormExpr.
  destruct (exprMap m !! fingerprint e) eqn:Hfp; intros; simplify_eq; simpl.
  - done.
  - apply lookup_insert_eq.
Qed.

Lemma memoize_hit ctx m e g :
  exprMap m !! fingerprint e = Some g →
  memo.MemoizeNormExpr ctx m e = (mkExprView g 0%N, m).
Proof. intros Hfp. unfold memo.MemoizeNormExpr. by rewrite Hfp. Qed.

Lemma memoize_index_stable ctx m e ev m' (fp : Fingerprint) g :
  memo.MemoizeNormExpr ctx m e = (ev, m') →
  exprMap m !! fp = Some g → exprMap m' !! fp = Some g.
Proof.
  unfold memo.MemoizeNormExpr.
  destruct (exprMap m !! fingerprint e) eqn:Hfp; intros; simplify_eq; simpl.
  - done.
  - rewrite lookup_insert_ne; [done | congruence].
Qed.

Lemma memoize_roots ctx m e ev m' :
  memo.MemoizeNormExpr ctx m e = (ev, m') →
  root m' = root m ∧ rootProps m' = rootProps m.
Proof.
  unfold memo.MemoizeNormExpr.
  by destruct (exprMap m !! fingerprint e); intros; simplify_eq.
Qed.
End MemoFacts.

(** ** [onConstruct] *)

Section OnConstructFacts.
Context {builder : PropsBuilder} {env : NormEnv} {build : Build}.
Implicit Types (e : Expr) (s : State).

Lemma onConstruct_eq e s :
  onConstruct e s =
    let '(ev, m) := memo.MemoizeNormExpr (evalCtx (fac s)) (mem (fac s)) e in
    let f' := withMem (fac s) m in
    if RaceEnabled then
      match checkExpr f' ev with
      | Some msg => Panicked (ConsistencyCheckFailed msg)
      | None => Returned (evGroup ev, mkState f' (trace s ++ [CheckExprCalled ev]))
      end
    else Returned (evGroup ev, mkState f' (trace s)).
Proof.
  unfold onConstruct, runCheckExpr. unfold_M.
  destruct (memo.MemoizeNormExpr _ _ e) as [ev m]; simpl.
  destruct RaceEnabled; simpl; [|done].
  by destruct (checkExpr _ ev).
Qed.

Lemma onConstruct_returned e s g s' :
  onConstruct e s = Returned (g, s') →
  ∃ ev, memo.MemoizeNormExpr (evalCtx (fac s)) (mem (fac s)) e = (ev, mem (fac s'))
        ∧ g = evGroup ev
        ∧ fac s' = withMem (fac s) (mem (fac s')).
Proof.
  rewrite onConstruct_eq.
  destruct (memo.MemoizeNormExpr _ _ e) as [ev m]; simpl.
  destruct RaceEnabled; [destruct (checkExpr _ ev)|];
    intros; simplify_eq; by exists ev.
Qed.

Lemma onConstruct_indexed e s g s' :
  onConstruct e s = Returned (g, s') →
  exprMap (mem (fac s')) !! fingerprint e = Some g.
Proof.
  intros (ev & Hm & -> & _)%onConstruct_returned. by eapply memoize_indexed.
Qed.

Lemma onConstruct_index_stable e s g s' (fp : Fingerprint) g0 :
  onConstruct e s = Returned (g, s') →
  exprMap (mem (fac s)) !! fp = Some g0 →
  exprMap (mem (fac s')) !! fp = Some g0.
Proof.
  intros (ev & Hm & -> & _)%onConstruct_returned. by eapply memoize_index_stable.
Qed.

Lemma onConstruct_hit e s g0 g s' :
  exprMap (mem (fac s)) !! fingerprint e = Some g0 →
  onConstruct e s = Returned (g, s') →
  g = g0 ∧ mem (fac s') = mem (fac s).
Proof.
  intros Hfp (ev & Hm & -> & _)%onConstruct_returned.
  rewrite (memoize_hit _ _ _ _ Hfp) in Hm. by simplify_eq.
Qed.

Lemma onConstruct_release_returns e s :
  RaceEnabled = false → returns (onConstruct e s).
Proof.
  intros Hrace. rewrite onConstruct_eq, Hrace.
  destruct (memo.MemoizeNormExpr _ _ e) as [ev m]; simpl. by eexists.
Qed.

End OnConstructFacts.

(** C7.  The consistency check runs on the constructed expression exactly in
    a race-enabled build: without the flag [onConstruct] returns the memoized
    group and no check is run; with the flag the check is run once, on the
    memoized expression, and the call then returns the very same group and
    factory, unless the check itself aborts the construction. *)
Theorem checkExpr_gated_by_race_flag {builder : PropsBuilder} {env : NormEnv}
    (e : Expr) (s : State) :
  ∃ ev m,
    memo.MemoizeNormExpr (evalCtx (fac s)) (mem (fac s)) e = (ev, m)
    ∧ onConstruct (build:=releaseBuild) e s
      = Returned (evGroup ev, mkState (withMem (fac s) m) (trace s))
    ∧ onConstruct (build:=checkedBuild) e s
      = match checkExpr (withMem (fac s) m) ev with
        | None =>
            Returned (evGroup ev,
                      mkState (withMem (fac s) m) (trace s ++ [CheckExprCalled ev]))
        | Some msg => Panicked (ConsistencyCheckFailed msg)
        end
    ∧ ∀ build : Build,
        match onConstruct e s with
        | Returned (g, s') =>
            g = evGroup ev
            ∧ fac s' = withMem (fac s) m
            ∧ trace s' = trace s ++ (if RaceEnabled then [CheckExprCalled ev] else [])
        | Panicked p => RaceEnabled = true
        | OutOfFuel => False
        end.
Proof.
  destruct (memo.MemoizeNormExpr (evalCtx (fac s)) (mem (fac s)) e) as [ev m] eqn:Hm.
  exists ev, m. split; [done|].
  repeat split.
  - rewrite onConstruct_eq, Hm. done.
  - rewrite onConstruct_eq, Hm. simpl. by destruct (checkExpr _ ev).
  - intros build. rewrite onConstruct_eq, Hm. simpl.
    destruct RaceEnabled.
    + by destruct (checkExpr _ ev).
    + by rewrite app_nil_r.
Qed.

(** ** Intern tables *)

Section InternFacts.
Context {P : Type} `{EqDecision P}.
Implicit Types (t : internTable P) (p q : P).

Lemma handleOf_Some t p h :
  handleOf t p = Some h → t !! h = Some p.
Proof.
  unfold handleOf. destruct (list_find _ t) as [[i x]|] eqn:Hfind; [|done].
  apply list_find_Some in Hfind as (Hi & -> & _). simpl. by intros [= <-].
Qed.

Lemma handleOf_None t p : handleOf t p = None → p ∉ t.
Proof.
  unfold handleOf. destruct (list_find _ t) as [[i x]|] eqn:Hfind; [done|].
  intros _. apply list_find_None in Hfind.
  rewrite Forall_forall in Hfind. intros Hin. by apply (Hfind p).
Qed.

Lemma handleOf_app t t' p h :
  handleOf t p = Some h → handleOf (t ++ t') p = Some h.
Proof.
  unfold handleOf. destruct (list_find _ t) as [[i x]|] eqn:Hfind; [|done].
  intros [= <-]. by erewrite list_find_app_l.
Qed.

Lemma handleOf_snoc t p :
  handleOf t p = None → handleOf (t ++ [p]) p = Some (length t).
Proof.
  intros Hnone%handleOf_None. unfold handleOf.
  assert (list_find (λ q, q = p) (t ++ [p]) = Some (length t, p)) as ->; [|done].
  apply list_find_Some. split; [by apply list_lookup_middle|].
  split; [done|].
  intros j y Hj Hlt ->. apply Hnone.
  rewrite lookup_app_l in Hj by done. by eapply list_elem_of_lookup_2.
Qed.

Lemma Intern_handle t p :
  handleOf (Intern t p).2 p = Some (N.to_nat (Intern t p).1).
Proof.
  unfold Intern. destruct (handleOf t p) as [h|] eqn:Hh; simpl.
  - by rewrite Nat2N.id.
  - rewrite Nat2N.id. by apply handleOf_snoc.
Qed.

Lemma Intern_extends t p : ∃ new, (Intern t p).2 = t ++ new.
Proof.
  unfold Intern. destruct (handleOf t p); simpl.
  - exists []. by rewrite app_nil_r.
  - by eexists.
Qed.

Lemma internAll_extends (ps : list P) : ∀ t, ∃ new, internAll t ps = t ++ new.
Proof.
  induction ps as [|p ps IH]; intros t; simpl.
  - exists []. by rewrite app_nil_r.
  - destruct (Intern_extends t p) as [new1 Hnew1].
    destruct (IH (Intern t p).2) as [new2 Hnew2].
    exists (new1 ++ new2). unfold internAll in *; simpl.
    by rewrite Hnew2, Hnew1, app_assoc.
Qed.

Lemma Intern_known t p h :
  handleOf t p = Some h → Intern t p = (N.of_nat h, t).
Proof. intros Hh. unfold Intern. by rewrite Hh. Qed.

Lemma Intern_fresh_handle t q :
  handleOf t q = None → (Intern t q).1 = N.of_nat (length t).
Proof. intros Hh. unfold Intern. by rewrite Hh. Qed.

(** Handles are stable and tell payloads apart. *)
Lemma Intern_again t p (between : list P) q :
  let hp := (Intern t p).1 in
  let t2 := internAll (Intern t p).2 between in
  let hq := (Intern t2 q).1 in
  (hp = hq ↔ p = q)
  ∧ (p = q → (Intern t2 q).2 = t2)
  ∧ t2 !! N.to_nat hp = Some p.
Proof.
  intros hp t2 hq.
  pose proof (Intern_handle t p) as Hhp. fold hp in Hhp.
  destruct (internAll_extends between (Intern t p).2) as [new Hnew]. fold t2 in Hnew.
  assert (handleOf t2 p = Some (N.to_nat hp)) as Hhp2.
  { rewrite Hnew. by apply handleOf_app. }
  assert (t2 !! N.to_nat hp = Some p) as Hlook by by apply handleOf_Some.
  split; [|split; [|done]].
  - split.
    + intros Heq. subst hq.
      destruct (handleOf t2 q) as [h|] eqn:Hq.
      * rewrite (Intern_known _ _ _ Hq) in Heq. simpl in Heq.
        apply handleOf_Some in Hq. rewrite Heq, Nat2N.id in Hlook. congruence.
      * rewrite (Intern_fresh_handle _ _ Hq) in Heq.
        apply lookup_lt_Some in Hlook. rewrite Heq, Nat2N.id in Hlook. lia.
    + intros <-. subst hq. rewrite (Intern_known _ _ _ Hhp2). simpl.
      by rewrite N2Nat.id.
  - intros <-. by rewrite (Intern_known _ _ _ Hhp2).
Qed.
End InternFacts.

Lemma InternList_eq (items : list GroupID) (s : State) :
  InternList items s
  = Returned ((Intern (listStorage (mem (fac s))) items).1,
              mkState (withMem (fac s) (memo.InternList (mem (fac s)) items).2)
                      (trace s)).
Proof.
  unfold InternList, memo.InternList. unfold_M.
  by destruct (Intern _ items).
Qed.

Lemma InternPrivate_eq (p : Private) (m : Memo) :
  memo.InternPrivate m p
  = ((Intern (privateStorage m) p).1,
     mkMemo (groups m) (exprMap m) (listStorage m)
            (Intern (privateStorage m) p).2 (root m) (rootProps m)).
Proof. unfold memo.InternPrivate. by destruct (Intern _ p). Qed.

(** C6.  Interning is idempotent.  In any intern table, a payload interned
    again, with any other payloads interned in between, receives the handle it
    received before and the table is left as it was; two payloads receive the
    same handle exactly when they are equal.  The same holds for the lists of
    groups interned through [InternList]. *)
Theorem intern_idempotent {P : Type} `{EqDecision P}
    (t : internTable P) (p q : P) (between : list P)
    (items1 items2 : list GroupID) (s : State) :
  (let hp := (Intern t p).1 in
   let t2 := internAll (Intern t p).2 between in
   let hq := (Intern t2 q).1 in
   (hp = hq ↔ p = q)
   ∧ (p = q → (Intern t2 q).2 = t2)
   ∧ t2 !! N.to_nat hp = Some p)
  ∧ (∃ h1 s1 h2 s2,
       InternList items1 s = Returned (h1, s1)
       ∧ InternList items2 s1 = Returned (h2, s2)
       ∧ (h1 = h2 ↔ items1 = items2)
       ∧ (items1 = items2 → s2 = s1)
       ∧ listStorage (mem (fac s2)) !! N.to_nat h1 = Some items1).
Proof.
  split; [apply Intern_again|].
  rewrite InternList_eq.
  eexists _, _, _, _. split; [done|].
  rewrite InternList_eq. split; [done|].
  unfold memo.InternList; simpl.
  destruct (Intern_again (listStorage (mem (fac s))) items1 [] items2)
    as (Hiff & Hsame & Hlook); simpl in *.
  destruct (Intern (listStorage (mem (fac s))) items1) as [h1 t1] eqn:H1; simpl in *.
  destruct (Intern t1 items2) as [h2 t2] eqn:H2; simpl in *.
  split; [done|]. split.
  - intros Heq. by rewrite (Hsame Heq).
  - destruct (Intern_extends t1 items2) as [new Hnew].
    rewrite H2 in Hnew; simpl in Hnew. rewrite Hnew.
    by apply lookup_app_l_Some.
Qed.

(** ** Disabled optimizations *)

Section DisabledRules.
Context {runtime : GoRuntime} {builder : PropsBuilder}
        {env : NormEnv} {build : Build}.

Lemma tryRules_disabled construct (e : Expr) (rs : list Rule) : ∀ (s : State) callback,
  matchedRule (fac s) = Some callback →
  (∀ r, callback r = false) →
  tryRules construct e rs s
  = onConstruct e (mkState (fac s) (trace s ++ skipEvents (fac s) e rs)).
Proof.
  unfold skipEvents.
  induction rs as [|r rs IH]; intros s callback Hcb Hfalse; simpl.
  - rewrite app_nil_r. by destruct s.
  - rewrite bind_unfold. simpl. unfold ruleMatches at 1.
    destruct (matchRule r (mem (fac s)) e) as [replacement|]; simpl.
    + destruct (detectCycles r && detectCycle (cycles (fac s)) (fingerprint e));
        simpl.
      * by erewrite IH.
      * unfold ruleEnabled. unfold_M. rewrite Hcb. simpl. rewrite Hfalse. simpl.
        erewrite IH; [|done..]. simpl. by rewrite <-app_assoc.
    + by erewrite IH.
Qed.
End DisabledRules.

(** C5.  [DisableOptimizations] installs a "rule matched" callback that
    answers false for every rule name.  From then on a construction refuses
    every candidate rule and hands the expression it was given, unchanged, to
    [onConstruct]: the group returned is the one memoized for that very
    expression, and the only events are the refusals and, in a checked build,
    the consistency check, so that no "rule applied" notification is sent. *)
Theorem disabled_optimizations_skip_rules
    {runtime : GoRuntime} {builder : PropsBuilder} {env : NormEnv} {build : Build}
    (fuel : nat) (e : Expr) (s : State) :
  ∃ callback s0,
    DisableOptimizations s = Returned ((), s0)
    ∧ matchedRule (fac s0) = Some callback
    ∧ (∀ r, callback r = false)
    ∧ mem (fac s0) = mem (fac s)
    ∧ trace s0 = trace s
    ∧ Construct (S fuel) e s0
      = onConstruct e (mkState (fac s0) (trace s ++ skipEvents (fac s) e (rules (op e))))
    ∧ (∀ g s',
         Construct (S fuel) e s0 = Returned (g, s') →
         ∃ ev,
           memo.MemoizeNormExpr (evalCtx (fac s)) (mem (fac s)) e
             = (ev, mem (fac s'))
           ∧ g = evGroup ev
           ∧ exprMap (mem (fac s')) !! fingerprint e = Some g
           ∧ trace s' = trace s ++ skipEvents (fac s) e (rules (op e))
                        ++ (if RaceEnabled then [CheckExprCalled ev] else []))
    ∧ (RaceEnabled = false → returns (Construct (S fuel) e s0)).
Proof.
  set (s0 := mkState (mkFactory (evalCtx (fac s)) (mem (fac s)) (Some (λ _, false))
                        (appliedRule (fac s)) (cycles (fac s))
                        (scratchItems (fac s)) (scratchColList (fac s)))
                     (trace s)).
  assert (Construct (S fuel) e s0
          = onConstruct e (mkState (fac s0)
                             (trace s ++ skipEvents (fac s) e (rules (op e)))))
    as Hskip.
  { change (Construct (S fuel) e s0)
      with (tryRules (Construct fuel) e (rules (op e)) s0).
    by erewrite tryRules_disabled. }
  exists (λ _, false), s0.
  split; [reflexivity|].
  do 4 (split; [done|]).
  rewrite Hskip.
  split; [done|]. split.
  - intros g s'. rewrite onConstruct_eq. simpl.
    destruct (memo.MemoizeNormExpr _ _ e) as [ev m] eqn:Hm. simpl.
    pose proof (memoize_indexed _ _ _ _ _ Hm) as Hidx.
    destruct RaceEnabled; [destruct (checkExpr _ ev)|];
      intros; simplify_eq; exists ev; simpl.
    + by rewrite <-app_assoc.
    + by rewrite app_nil_r.
  - intros Hrace. by apply onConstruct_release_returns.
Qed.

Lemma init_eq (rc : ruleCycles) :
  init rc
  = Returned (mkRuleCycles (if is_nil (stack rc) then nil_slice
                            else mk_slice [] (array (stack rc)))).
Proof.
  unfold init. destruct rc as [[|live spare]]; simpl; [done|].
  by rewrite slice_to_zero.
Qed.

(** C10.  [Init] returns with both callbacks nil and an empty guard stack, on
    which [detectCycle] answers false for every fingerprint.  The stack keeps
    the backing array and the capacity it had (a nil stack stays nil), so that
    the next push writes into that array.  With the callbacks nil no callback
    call is made: every rule is let through and no notification is sent. *)
Theorem Init_resets_factory {runtime : GoRuntime}
    (ctx : EvalContext) (s : State) :
  ∃ s',
    Init ctx s = Returned ((), s')
    ∧ matchedRule (fac s') = None
    ∧ appliedRule (fac s') = None
    ∧ onStack (cycles (fac s')) = []
    ∧ (∀ fp, detectCycle (cycles (fac s')) fp = false)
    ∧ array (stack (cycles (fac s'))) = array (stack (cycles (fac s)))
    ∧ cap (stack (cycles (fac s'))) = cap (stack (cycles (fac s)))
    ∧ is_nil (stack (cycles (fac s'))) = is_nil (stack (cycles (fac s)))
    ∧ (∀ fp, cap (stack (cycles (fac s))) ≠ 0 →
         array (stack (push (cycles (fac s')) fp))
         = <[0 := fp]> (array (stack (cycles (fac s)))))
    ∧ evalCtx (fac s') = ctx
    ∧ mem (fac s') = memo.Init ctx
    ∧ trace s' = trace s
    ∧ (∀ r, ruleEnabled r s' = Returned (true, s'))
    ∧ (∀ r g, notifyApplied r g s' = Returned ((), s')).
Proof.
  eexists. split.
  { unfold Init. unfold_M. rewrite init_eq. simpl. reflexivity. }
  destruct s as [[ctx0 m0 mr ar [[|live spare]] si sc] tr]; simpl.
  - repeat split; done.
  - repeat split; try done.
    intros fp Hcap. unfold push, cap in *; simpl in *.
    by destruct (live ++ spare) as [|x rest].
Qed.

(** C9.  [ConstructConstVal] splits on its datum: the null datum builds a
    [Null] operator over the interned [Unknown] type, a boolean datum builds
    [True] or [False] according to its value, and any other datum builds a
    [Const] operator over the datum, interned.  Every datum is in exactly one
    of these four cases. *)
Theorem ConstructConstVal_cases
    {runtime : GoRuntime} {builder : PropsBuilder} {env : NormEnv} {build : Build}
    (fuel : nat) (d : Datum) (s : State) :
  (d = DNull
   ∧ ∃ typ m,
       memo.InternPrivate (mem (fac s)) (PrivType types.Unknown) = (typ, m)
       ∧ privateStorage m !! N.to_nat typ = Some (PrivType types.Unknown)
       ∧ ConstructConstVal fuel d s
         = Construct fuel (mkExpr NullOp [typ] [])
                     (mkState (withMem (fac s) m) (trace s)))
  ∨ (d = DBool true
     ∧ ConstructConstVal fuel d s = Construct fuel (mkExpr TrueOp [] []) s)
  ∨ (d = DBool false
     ∧ ConstructConstVal fuel d s = Construct fuel (mkExpr FalseOp [] []) s)
  ∨ (d ≠ DNull ∧ (∀ b, d ≠ DBool b)
     ∧ ∃ value m,
         memo.InternPrivate (mem (fac s)) (PrivDatum d) = (value, m)
         ∧ privateStorage m !! N.to_nat value = Some (PrivDatum d)
         ∧ ConstructConstVal fuel d s
           = Construct fuel (mkExpr ConstOp [value] [])
                       (mkState (withMem (fac s) m) (trace s))).
Proof.
  assert (∀ p, ∃ h m,
            memo.InternPrivate (mem (fac s)) p = (h, m)
            ∧ privateStorage m !! N.to_nat h = Some p) as Hintern.
  { intros p. rewrite InternPrivate_eq. eexists _, _. split; [done|]. simpl.
    apply handleOf_Some, Intern_handle. }
  assert (∀ d', d' ≠ DNull → asDBool d' = None →
            ∃ value m,
              memo.InternPrivate (mem (fac s)) (PrivDatum d') = (value, m)
              ∧ privateStorage m !! N.to_nat value = Some (PrivDatum d')
              ∧ ConstructConstVal fuel d' s
                = Construct fuel (mkExpr ConstOp [value] [])
                            (mkState (withMem (fac s) m) (trace s))) as Hother.
  { intros d' Hnull Hbool.
    destruct (Hintern (PrivDatum d')) as (value & m & Hm & Hlook).
    exists value, m. do 2 (split; [done|]).
    unfold ConstructConstVal. rewrite decide_False by done. rewrite Hbool.
    unfold InternDatum, ConstructConst. unfold_M. by rewrite Hm. }
  destruct d as [|[|]|z|str].
  - left. split; [done|].
    destruct (Hintern (PrivType types.Unknown)) as (typ & m & Hm & Hlook).
    exists typ, m. do 2 (split; [done|]).
    unfold ConstructConstVal, InternType, ConstructNull. unfold_M. by rewrite Hm.
  - right; left. done.
  - right; right; left. done.
  - right; right; right. split; [done|]. split; [done|]. by apply Hother.
  - right; right; right. split; [done|]. split; [done|]. by apply Hother.
Qed.

(** ** What constructions leave alone *)

Section Frame.
Context {runtime : GoRuntime} {builder : PropsBuilder}
        {env : NormEnv} {build : Build}.

Lemma keeps_ret {A} (a : A) : keeps (mret a).
Proof. intros s a' s' [= _ <-]. done. Qed.

Lemma keeps_bind {A B} (c : M A) (k : A → M B) :
  keeps c → (∀ a, keeps (k a)) → keeps (c ≫= k).
Proof.
  intros Hc Hk s b s' (a & s1 & H1 & H2)%bind_returned.
  rewrite (Hk _ _ _ _ H2). by eapply Hc.
Qed.

Lemma keeps_getFactory : keeps getFactory.
Proof. intros s a' s' [= _ <-]. done. Qed.

Lemma keeps_emit ev : keeps (emit ev).
Proof. intros s a' s' [= _ <-]. done. Qed.

Lemma keeps_onConstruct e : keeps (onConstruct e).
Proof.
  intros s g s' (ev & Hm & _ & Hfac)%onConstruct_returned.
  apply memoize_roots in Hm as [Hroot Hprops].
  unfold frame. rewrite Hfac; simpl. by rewrite Hroot, Hprops.
Qed.

Lemma keeps_InternList items : keeps (InternList items).
Proof.
  intros s h s'. rewrite InternList_eq. intros [= _ <-].
  unfold memo.InternList. by destruct (Intern _ items).
Qed.

Lemma keeps_ruleEnabled r : keeps (ruleEnabled r).
Proof.
  intros s b s'. unfold ruleEnabled. unfold_M.
  destruct (matchedRule (fac s)); by intros [= _ <-].
Qed.

Lemma keeps_notifyApplied r g : keeps (notifyApplied r g).
Proof.
  intros s b s'. unfold notifyApplied. unfold_M.
  destruct (appliedRule (fac s)); by intros [= _ <-].
Qed.

Lemma keeps_runReplace construct (r : Replace) :
  (∀ e, keeps (construct e)) → keeps (runReplace construct r).
Proof.
  intros Hconstruct. induction r as [g|e k IH|items k IH|p k IH|k IH]; simpl.
  - apply keeps_ret.
  - apply keeps_bind; [done|]. intros g. apply IH.
  - apply keeps_bind; [apply keeps_InternList|]. intros h. apply IH.
  - intros s g s'. unfold_M. rewrite InternPrivate_eq. intros Hrun.
    by rewrite (IH _ _ _ _ Hrun).
  - intros s g s'. unfold_M. apply IH.
Qed.
Lemma keeps_InternPrivate (p : Private) (k : PrivateID → M GroupID) :
  (∀ h, keeps (k h)) →
  keeps (f ← getFactory;
         let '(h, m) := memo.InternPrivate (mem f) p in setMem m;; k h).
Proof.
  intros Hk s g s'. unfold_M. rewrite InternPrivate_eq. intros Hrun.
  by rewrite (Hk _ _ _ _ Hrun).
Qed.

Lemma keeps_fireRule construct (r : Rule) (e : Expr) (replacement : Replace) :
  (∀ e, keeps (construct e)) → keeps (fireRule construct r e replacement).
Proof.
  intros Hconstruct. unfold fireRule. destruct (detectCycles r).
  - intros s g s' Hrun.
    apply bind_returned in Hrun as ([] & s1 & Hpush & Hrun).
    apply bind_returned in Hrun as (g' & s2 & Hrepl & Hrun).
    apply bind_returned in Hrun as ([] & s3 & Hpop & Hrun).
    apply bind_returned in Hrun as ([] & s4 & Hnote & Hret).
    apply keeps_notifyApplied in Hnote. apply keeps_ret in Hret.
    apply keeps_runReplace in Hrepl; [|done].
    rewrite Hret, Hnote. clear Hret Hnote.
    unfold pushCycle in Hpush. unfold_M. injection Hpush as <-.
    unfold frame in Hrepl; simpl in Hrepl.
    injection Hrepl as Hctx Hmatched Happlied Hstack Hroot Hprops.
    rewrite onStack_push in Hstack.
    destruct (pop_snoc _ _ _ Hstack) as (rc' & Hp & Hst).
    unfold popCycle in Hpop. unfold_M. rewrite Hp in Hpop. simpl in Hpop.
    injection Hpop as <-.
    unfold frame; simpl. congruence.
  - apply keeps_bind; [apply keeps_ret|]. intros _.
    apply keeps_bind; [by apply keeps_runReplace|]. intros g.
    apply keeps_bind; [apply keeps_ret|]. intros _.
    apply keeps_bind; [apply keeps_notifyApplied|]. intros _.
    apply keeps_ret.
Qed.

Lemma keeps_tryRules construct (e : Expr) (candidates : list Rule) :
  (∀ e, keeps (construct e)) → keeps (tryRules construct e candidates).
Proof.
  intros Hconstruct. induction candidates as [|r rest IH]; simpl.
  - apply keeps_onConstruct.
  - apply keeps_bind; [apply keeps_getFactory|]. intros f.
    destruct (matchRule r (mem f) e); [|apply IH].
    destruct (_ && _); [apply IH|].
    apply keeps_bind; [apply keeps_ruleEnabled|]. intros enabled.
    destruct enabled; [by apply keeps_fireRule | apply IH].
Qed.

Lemma keeps_Construct (fuel : nat) : ∀ e, keeps (Construct fuel e).
Proof.
  induction fuel as [|fuel IH]; intros e; simpl.
  - by intros s g s'.
  - by apply keeps_tryRules.
Qed.

Lemma keeps_ConstructConstVal (fuel : nat) (d : Datum) :
  keeps (ConstructConstVal fuel d).
Proof.
  unfold ConstructConstVal. destruct (decide (d = DNull)).
  - unfold InternType. intros s g s'. unfold_M. rewrite InternPrivate_eq.
    intros Hrun. by rewrite (keeps_Construct _ _ _ _ _ Hrun).
  - destruct (asDBool d) as [[|]|]; [apply keeps_Construct..|].
    unfold InternDatum. intros s g s'. unfold_M. rewrite InternPrivate_eq.
    intros Hrun. by rewrite (keeps_Construct _ _ _ _ _ Hrun).
Qed.

Lemma keeps_mapM {A B} (f : A → M B) (l : list A) :
  (∀ a, keeps (f a)) → keeps (mapM f l).
Proof.
  intros Hf. induction l as [|a l IH]; simpl.
  - apply keeps_ret.
  - apply keeps_bind; [done|]. intros b.
    apply keeps_bind; [done|]. intros bs. apply keeps_ret.
Qed.

Lemma keeps_assignPlaceholders (fuel : nat) :
  ∀ group, keeps (assignPlaceholders fuel group).
Proof.
  induction fuel as [|fuel IH]; intros group; simpl.
  - by intros s g s'.
  - apply keeps_bind; [apply keeps_getFactory|]. intros f.
    destruct (memo.NormExpr (mem f) group) as [e|]; [|by intros s g s'].
    destruct (decide (op e = PlaceholderOp)).
    + destruct (placeholderValue f e);
        [apply keeps_ConstructConstVal | apply keeps_ret].
    + apply keeps_bind; [by apply keeps_mapM|]. intros kids.
      destruct (decide (kids = children e));
        [apply keeps_ret | apply keeps_Construct].
Qed.
End Frame.

(** ** Placeholder rebinding *)

(** C4, as the code has it.  When [AssignPlaceholders] returns, the root of the
    memo is the group the rebuild of the rooted tree returned, and the root
    properties are the ones the memo held before the call: [RootProps] is read
    back after the rebuild, which does not touch it, and is installed again. *)
Theorem AssignPlaceholders_installs_rebuilt_root
    {runtime : GoRuntime} {builder : PropsBuilder} {env : NormEnv} {build : Build}
    (fuel : nat) (s s' : State) :
  AssignPlaceholders fuel s = Returned ((), s') →
  ∃ g s1,
    assignPlaceholders fuel (memo.RootGroup (mem (fac s))) s = Returned (g, s1)
    ∧ memo.RootGroup (mem (fac s')) = g
    ∧ memo.RootProps (mem (fac s')) = memo.RootProps (mem (fac s))
    ∧ mem (fac s') = memo.SetRoot (mem (fac s1)) g (memo.RootProps (mem (fac s)))
    ∧ trace s' = trace s1.
Proof.
  unfold AssignPlaceholders. rewrite bind_unfold. simpl.
  intros (g & s1 & Hwalk & Hset)%bind_returned.
  exists g, s1. split; [done|].
  pose proof (keeps_assignPlaceholders _ _ _ _ _ Hwalk) as Hframe.
  unfold frame in Hframe. injection Hframe as _ _ _ _ _ Hprops.
  unfold_M. injection Hset as <-. simpl.
  unfold memo.RootProps. by rewrite Hprops.
Qed.

Lemma AssignPlaceholders_installs_rebuilt_root_witness :
  ∃ s' g s1,
    AssignPlaceholders (runtime:=doublingRuntime) (builder:=sampleBuilder)
      (env:=noRules) (build:=releaseBuild) 2 preparedState = Returned ((), s')
    ∧ assignPlaceholders (runtime:=doublingRuntime) (builder:=sampleBuilder)
        (env:=noRules) (build:=releaseBuild) 2
        (memo.RootGroup (mem (fac preparedState))) preparedState = Returned (g, s1)
    ∧ memo.RootGroup (mem (fac s')) = g
    ∧ memo.RootProps (mem (fac s')) = memo.RootProps (mem (fac preparedState)).
Proof.
  eexists.
  destruct (AssignPlaceholders_installs_rebuilt_root
              (runtime:=doublingRuntime) (builder:=sampleBuilder)
              (env:=noRules) (build:=releaseBuild) 2 preparedState _ eq_refl)
    as (g & s1 & Hwalk & Hroot & Hprops & _).
  exists g, s1. split; [reflexivity|]. done.
Defined.

(** C4, as stated, fails.  For the prepared statement [$0] with [true] bound
    to the placeholder, the rebuilt root is the group of the [True] operator,
    whose derived properties bound it to one row; the root properties that
    [AssignPlaceholders] installs are still those of the placeholder's group,
    the root before the rebinding. *)
Lemma AssignPlaceholders_keeps_old_root_props :
  ∃ s',
    AssignPlaceholders (runtime:=doublingRuntime) (builder:=sampleBuilder)
      (env:=noRules) (build:=releaseBuild) 2 preparedState = Returned ((), s')
    ∧ memo.RootGroup (mem (fac preparedState)) = 0%N
    ∧ memo.NormExpr (mem (fac preparedState)) 0%N = Some (mkExpr PlaceholderOp [0%N] [])
    ∧ memo.RootProps (mem (fac preparedState)) = mkLogicalProps [] [] [] None
    ∧ memo.Properties (mem (fac preparedState)) 0%N = Some (mkLogicalProps [] [] [] None)
    ∧ memo.RootGroup (mem (fac s')) = 1%N
    ∧ memo.NormExpr (mem (fac s')) 1%N = Some (mkExpr TrueOp [] [])
    ∧ memo.Properties (mem (fac s')) 1%N = Some (mkLogicalProps [] [] [] (Some 1%N))
    ∧ memo.RootProps (mem (fac s')) = mkLogicalProps [] [] [] None
    ∧ Some (memo.RootProps (mem (fac s')))
      ≠ memo.Properties (mem (fac s')) (memo.RootGroup (mem (fac s'))).
Proof.
  eexists. split; [vm_compute; reflexivity|].
  repeat split; try (vm_compute; reflexivity).
  vm_compute. discriminate.
Qed.

(** ** The guard stack across a construction *)

(** A construction that returns leaves on the guard stack the fingerprints it
    found there: every rule tagged for cycle detection pops what it pushed.
    Started on an empty stack, the construction ends on an empty stack. *)
Theorem Construct_unwinds_guard_stack
    {runtime : GoRuntime} {builder : PropsBuilder} {env : NormEnv} {build : Build}
    (fuel : nat) (e : Expr) (s : State) (g : GroupID) (s' : State) :
  Construct fuel e s = Returned (g, s') →
  onStack (cycles (fac s')) = onStack (cycles (fac s))
  ∧ ∀ fp, detectCycle (cycles (fac s')) fp = detectCycle (cycles (fac s)) fp.
Proof.
  intros Hframe%keeps_Construct.
  unfold frame in Hframe. injection Hframe as _ _ _ Hstack _ _.
  split; [done|]. intros fp. unfold detectCycle. fold (onStack (cycles (fac s'))).
  by rewrite Hstack.
Qed.

(** The two flip rules call each other once and stop: the second attempt at
    [FlipUp] finds the fingerprint on the stack, the expression is memoized as
    it is, both rules report, and the stack is empty again. *)
Lemma Construct_unwinds_guard_stack_witness :
  ∃ s',
    Construct (runtime:=doublingRuntime) (builder:=sampleBuilder)
      (env:=flipRules) (build:=releaseBuild) 3
      (mkExpr (OtherOp 1) [] [5%N]) tracingState = Returned (0%N, s')
    ∧ memo.NormExpr (mem (fac s')) 0%N = Some (mkExpr (OtherOp 1) [] [5%N])
    ∧ trace s' = [AppliedRuleCalled "FlipDown" 0%N 0%N 0%Z;
                  AppliedRuleCalled "FlipUp" 0%N 0%N 0%Z]
    ∧ onStack (cycles (fac s')) = []
    ∧ array (stack (cycles (fac s')))
      = [fingerprint (mkExpr (OtherOp 1) [] [5%N]);
         fingerprint (mkExpr (OtherOp 2) [] [5%N])].
Proof.
  eexists. split; [vm_compute; reflexivity|].
  split; [vm_compute; reflexivity|].
  split; [vm_compute; reflexivity|].
  split; [|vm_compute; reflexivity].
  exact (proj1 (Construct_unwinds_guard_stack
                  (runtime:=doublingRuntime) (builder:=sampleBuilder)
                  (env:=flipRules) (build:=releaseBuild) 3
                  (mkExpr (OtherOp 1) [] [5%N]) tracingState 0%N _ eq_refl)).
Defined.

(** * Further properties of the code *)

(** ** The guard is a stack *)

Section GuardCallFacts.
Context {runtime : GoRuntime}.
Implicit Types (rc : ruleCycles) (fp : Fingerprint).

Lemma detectCycle_decide rc fp :
  detectCycle rc fp = bool_decide (fp ∈ onStack rc).
Proof.
  apply eq_true_iff_eq. rewrite bool_decide_eq_true.
  apply detectCycle_range_elem.
Qed.

Lemma runCall_listCall (c : guardCall) rc :
  match runCall c rc with
  | Returned (answers, rc') => listCall c (onStack rc) = Some (answers, onStack rc')
  | Panicked _ => listCall c (onStack rc) = None
  | OutOfFuel => False
  end.
Proof.
  destruct c as [|fp| |fp]; simpl.
  - rewrite init_eq. simpl. by destruct (is_nil (stack rc)).
  - by rewrite onStack_push.
  - destruct (decide (onStack rc = [])) as [Hnil|Hne].
    + by rewrite (pop_empty _ Hnil).
    + pose proof Hne as (l & x & Hst)%exists_last.
      destruct (pop_snoc rc l x Hst) as (rc' & -> & Hst'). simpl.
      by rewrite Hst, removelast_last, Hst'.
  - by rewrite detectCycle_decide.
Qed.
End GuardCallFacts.

(** The slice code of the guard is a last-in first-out stack.  For every
    sequence of [init], [push], [pop] and [detectCycle] calls, from every
    guard and under every growth policy of the runtime, the calls return
    exactly when no pop meets an empty stack, and then the answers of
    [detectCycle] and the fingerprints left on the stack are those of the
    plain list; fingerprints left behind in the backing array are never
    reported. *)
Theorem ruleCycles_is_a_stack {runtime : GoRuntime}
    (cs : list guardCall) (rc : ruleCycles) :
  match runCalls cs rc with
  | Returned (answers, rc') =>
      listCalls cs (onStack rc) = Some (answers, onStack rc')
  | Panicked _ => listCalls cs (onStack rc) = None
  | OutOfFuel => False
  end.
Proof.
  revert rc. induction cs as [|c cs IH]; intros rc; simpl; [done|].
  pose proof (runCall_listCall c rc) as Hc.
  destruct (runCall c rc) as [[answers rc1]|p|]; simpl; [|by rewrite Hc|done].
  rewrite Hc. simpl.
  specialize (IH rc1).
  destruct (runCalls cs rc1) as [[more rc2]|p|]; simpl; [|by rewrite IH|done].
  by rewrite IH.
Qed.

(** ** The storage of the guard *)

Section GuardStorage.
Context {runtime : GoRuntime}.
Implicit Types (rc : ruleCycles) (fp : Fingerprint).

Lemma cap_push rc fp : cap (stack rc) ≤ cap (stack (push rc fp)).
Proof.
  destruct rc as [[|live [|x spare]]]; unfold push, cap, len; simpl;
    repeat (rewrite ?length_app, ?length_replicate; simpl);
    unfold Fingerprint in *; lia.
Qed.

Lemma push_in_place rc fp :
  len (stack rc) < cap (stack rc) →
  array (stack (push rc fp)) = <[len (stack rc) := fp]> (array (stack rc)).
Proof.
  destruct rc as [[|live [|x spare]]]; unfold push, cap, len; simpl.
  - lia.
  - rewrite length_app; simpl; lia.
  - intros _. rewrite <-app_assoc. simpl.
    rewrite insert_app_r_alt by lia. by rewrite Nat.sub_diag.
Qed.

Lemma pop_keeps_array rc rc' :
  pop rc = Returned rc' → array (stack rc') = array (stack rc).
Proof.
  destruct (decide (onStack rc = [])) as [Hnil|Hne].
  - by rewrite (pop_empty _ Hnil).
  - apply exists_last in Hne as (l & x & Hst).
    destruct rc as [[|live spare]]; unfold onStack in Hst; simpl in Hst.
    + by destruct l.
    + subst live. unfold pop, len; simpl. rewrite slice_to_drop_last. simpl.
      intros [= <-]. simpl. by rewrite <-app_assoc.
Qed.

Lemma runCall_cap (c : guardCall) rc answers rc' :
  runCall c rc = Returned (answers, rc') → cap (stack rc) ≤ cap (stack rc').
Proof.
  destruct c as [|fp| |fp]; simpl.
  - rewrite init_eq. simpl. intros [= _ <-]. simpl.
    by destruct (stack rc).
  - intros [= _ <-]. apply cap_push.
  - destruct (pop rc) as [rc1| |] eqn:Hpop; simpl; [|done..].
    intros [= _ <-]. unfold cap. by rewrite (pop_keeps_array _ _ Hpop).
  - by intros [= _ <-].
Qed.
End GuardStorage.

(** The guard never gives storage back: over any sequence of calls that
    returns, [init] and [pop] keep the backing array of the stack and [push]
    keeps or enlarges it, so the capacity of the stack never decreases. *)
Theorem guard_capacity_never_shrinks {runtime : GoRuntime}
    (cs : list guardCall) (rc : ruleCycles) :
  match runCalls cs rc with
  | Returned (_, rc') => cap (stack rc) ≤ cap (stack rc')
  | _ => True
  end.
Proof.
  revert rc. induction cs as [|c cs IH]; intros rc; simpl; [done|].
  destruct (runCall c rc) as [[answers rc1]|p|] eqn:Hc; simpl; [|done..].
  apply runCall_cap in Hc. specialize (IH rc1).
  destruct (runCalls cs rc1) as [[more rc2]|p|]; simpl; [lia|done..].
Qed.

(** Pushes that fit in the capacity the stack already has are written into
    its backing array, one slot after the other, and allocate nothing: the
    capacity is unchanged and the array differs only in the slots written.
    This is what makes a guard reset by [init] reusable without allocation. *)
Theorem guard_pushes_reuse_storage {runtime : GoRuntime}
    (rc : ruleCycles) (fps : list Fingerprint) :
  len (stack rc) + length fps ≤ cap (stack rc) →
  onStack (pushAll rc fps) = onStack rc ++ fps
  ∧ cap (stack (pushAll rc fps)) = cap (stack rc)
  ∧ array (stack (pushAll rc fps))
    = onStack rc ++ fps ++ drop (len (stack rc) + length fps) (array (stack rc)).
Proof.
  revert rc. induction fps as [|fp fps IH]; intros rc Hfit; simpl in *.
  - rewrite Nat.add_0_r, app_nil_r.
    split; [done|]. split; [done|].
    destruct rc as [[|live spare]]; unfold onStack, len; simpl; [done|].
    by rewrite drop_app_length.
  - assert (len (stack rc) < cap (stack rc)) as Hlt by lia.
    pose proof (push_in_place rc fp Hlt) as Harr.
    assert (len (stack (push rc fp)) = S (len (stack rc))) as Hlen.
    { unfold len. fold (onStack (push rc fp)). rewrite onStack_push.
      rewrite length_app. unfold onStack. simpl. lia. }
    assert (cap (stack (push rc fp)) = cap (stack rc)) as Hcap.
    { unfold cap. rewrite Harr. apply length_insert. }
    destruct (IH (push rc fp)) as (Hst & Hc & Ha); [lia|].
    unfold pushAll in *. rewrite Hst, Hc, Ha, onStack_push, Hlen, Harr.
    split; [by rewrite <-app_assoc|]. split; [done|].
    rewrite <-!app_assoc. simpl. do 3 f_equal.
    rewrite drop_insert_lt by lia. f_equal. lia.
Qed.

Lemma guard_pushes_reuse_storage_witness :
  let rc := mkRuleCycles (mk_slice [] [[7%N]; [8%N]; [9%N]]) in
  let fps := [[1%N]; [2%N]] in
  onStack (pushAll (runtime:=doublingRuntime) rc fps) = onStack rc ++ fps
  ∧ cap (stack (pushAll (runtime:=doublingRuntime) rc fps)) = cap (stack rc)
  ∧ array (stack (pushAll (runtime:=doublingRuntime) rc fps))
    = onStack rc ++ fps ++ drop (len (stack rc) + length fps) (array (stack rc)).
Proof.
  apply (guard_pushes_reuse_storage (runtime:=doublingRuntime)
           (mkRuleCycles (mk_slice [] [[7%N]; [8%N]; [9%N]])) [[1%N]; [2%N]]).
  vm_compute. lia.
Defined.

(** ** Relations kept by every construction *)

(** A preorder on states that the elementary steps of the protocol respect is
    respected by whole constructions, whatever the rule catalog.  The "rule
    applied" notification only has to respect it for a rule the "rule
    matched" callback has let through. *)
Section Steps.
Context {runtime : GoRuntime} {builder : PropsBuilder}
        {env : NormEnv} {build : Build}.
Context (R : State → State → Prop) `{!PreOrder R}.

Hypothesis R_onConstruct : ∀ e, steps R (onConstruct e).
Hypothesis R_list : ∀ s items,
  R s (mkState (withMem (fac s) (memo.InternList (mem (fac s)) items).2) (trace s)).
Hypothesis R_private : ∀ s p,
  R s (mkState (withMem (fac s) (memo.InternPrivate (mem (fac s)) p).2) (trace s)).
Hypothesis R_cycles : ∀ s rc, R s (mkState (withCycles (fac s) rc) (trace s)).
Hypothesis R_enabled : ∀ r, steps R (ruleEnabled r).
Hypothesis R_applied : ∀ r g s0 s1 s2 s3,
  ruleEnabled r s0 = Returned (true, s1) → R s1 s2 →
  notifyApplied r g s2 = Returned ((), s3) → R s2 s3.

Lemma steps_ret {A} (a : A) : steps R (mret a).
Proof. intros s a' s' [= _ <-]. reflexivity. Qed.

Lemma steps_bind {A B} (c : M A) (k : A → M B) :
  steps R c → (∀ a, steps R (k a)) → steps R (c ≫= k).
Proof.
  intros Hc Hk s b s' (a & s1 & H1 & H2)%bind_returned.
  etrans; [by eapply Hc | by eapply Hk].
Qed.

Lemma steps_getFactory : steps R getFactory.
Proof. intros s a' s' [= _ <-]. reflexivity. Qed.

Lemma steps_InternList items : steps R (InternList items).
Proof. intros s h s'. rewrite InternList_eq. intros [= _ <-]. apply R_list. Qed.

Lemma steps_InternPrivate {A} (p : Private) (k : PrivateID → M A) :
  (∀ h, steps R (k h)) →
  steps R (f ← getFactory;
           let '(h, m) := memo.InternPrivate (mem f) p in setMem m;; k h).
Proof.
  intros Hk s a s'. unfold_M.
  pose proof (R_private s p) as Hp.
  destruct (memo.InternPrivate (mem (fac s)) p) as [h m]; simpl in *.
  intros Hrun. etrans; [done | by eapply Hk].
Qed.

Lemma steps_runReplace construct (r : Replace) :
  (∀ e, steps R (construct e)) → steps R (runReplace construct r).
Proof.
  intros Hconstruct. induction r as [g|e k IH|items k IH|p k IH|k IH]; simpl.
  - apply steps_ret.
  - apply steps_bind; [done|]. intros g. apply IH.
  - apply steps_bind; [apply steps_InternList|]. intros h. apply IH.
  - by apply steps_InternPrivate.
  - apply steps_bind; [apply steps_getFactory|]. intros f. apply IH.
Qed.

Lemma steps_pushCycle fp : steps R (pushCycle fp).
Proof. intros s a s'. unfold pushCycle. unfold_M. intros [= _ <-]. apply R_cycles. Qed.

Lemma steps_popCycle : steps R popCycle.
Proof.
  intros s a s'. unfold popCycle. unfold_M.
  destruct (pop (cycles (fac s))); simpl; [|done..].
  intros [= _ <-]. apply R_cycles.
Qed.

Lemma steps_fireRule construct (r : Rule) (e : Expr) (replacement : Replace) s0 s1 :
  (∀ e, steps R (construct e)) →
  ruleEnabled (ruleName r) s0 = Returned (true, s1) →
  ∀ g s', fireRule construct r e replacement s1 = Returned (g, s') → R s1 s'.
Proof.
  intros Hconstruct Henabled g s' Hrun. unfold fireRule in Hrun.
  apply bind_returned in Hrun as ([] & s2 & Hpush & Hrun).
  apply bind_returned in Hrun as (g' & s3 & Hrepl & Hrun).
  apply bind_returned in Hrun as ([] & s4 & Hpop & Hrun).
  apply bind_returned in Hrun as ([] & s5 & Hnote & Hret).
  injection Hret as _ <-.
  assert (R s1 s4) as H14.
  { etrans; [|etrans].
    - destruct (detectCycles r); [by eapply steps_pushCycle | by eapply steps_ret].
    - by eapply steps_runReplace.
    - destruct (detectCycles r); [by eapply steps_popCycle | by eapply steps_ret]. }
  etrans; [done|]. by eapply R_applied.
Qed.

Lemma steps_tryRules construct (e : Expr) (candidates : list Rule) :
  (∀ e, steps R (construct e)) → steps R (tryRules construct e candidates).
Proof.
  intros Hconstruct. induction candidates as [|r rest IH]; simpl.
  - apply R_onConstruct.
  - apply steps_bind; [apply steps_getFactory|]. intros f.
    destruct (matchRule r (mem f) e) as [replacement|]; [|apply IH].
    destruct (_ && _); [apply IH|].
    intros s0 g s' (enabled & s1 & Henabled & Hrun)%bind_returned.
    etrans; [by eapply R_enabled|].
    destruct enabled; [by eapply steps_fireRule | by eapply IH].
Qed.

Lemma steps_Construct (fuel : nat) : ∀ e, steps R (Construct fuel e).
Proof.
  induction fuel as [|fuel IH]; intros e; simpl.
  - by intros s g s'.
  - by apply steps_tryRules.
Qed.

Lemma steps_InternType (t : types.T) : steps R (InternType t).
Proof. unfold InternType. apply steps_InternPrivate. intros h. apply steps_ret. Qed.

Lemma steps_InternDatum (d : Datum) : steps R (InternDatum d).
Proof. unfold InternDatum. apply steps_InternPrivate. intros h. apply steps_ret. Qed.

Lemma steps_ConstructConstVal (fuel : nat) (d : Datum) :
  steps R (ConstructConstVal fuel d).
Proof.
  unfold ConstructConstVal. destruct (decide (d = DNull)).
  - apply steps_bind; [apply steps_InternType|]. intros h. apply steps_Construct.
  - destruct (asDBool d) as [[|]|]; [apply steps_Construct..|].
    apply steps_bind; [apply steps_InternDatum|]. intros h. apply steps_Construct.
Qed.
Lemma steps_mapM {A B} (f : A → M B) (l : list A) :
  (∀ a, steps R (f a)) → steps R (mapM f l).
Proof.
  intros Hf. induction l as [|a l IH]; simpl.
  - apply steps_ret.
  - apply steps_bind; [done|]. intros b.
    apply steps_bind; [done|]. intros bs. apply steps_ret.
Qed.

Lemma steps_assignPlaceholders (fuel : nat) :
  ∀ group, steps R (assignPlaceholders fuel group).
Proof.
  induction fuel as [|fuel IH]; intros group; simpl.
  - by intros s g s'.
  - apply steps_bind; [apply steps_getFactory|]. intros f.
    destruct (memo.NormExpr (mem f) group) as [e|]; [|by intros s g s'].
    destruct (decide (op e = PlaceholderOp)).
    + destruct (placeholderValue f e);
        [apply steps_ConstructConstVal | apply steps_ret].
    + apply steps_bind; [by apply steps_mapM|]. intros kids.
      destruct (decide (kids = children e));
        [apply steps_ret | apply steps_Construct].
Qed.
End Steps.

(** ** The memo grows and stays well formed *)

Section MemoInvariant.
Context {builder : PropsBuilder}.
Implicit Types (m : Memo) (e : Expr) (g : GroupID).

Lemma grows_refl m : grows m m.
Proof. by repeat split. Qed.

Lemma grows_trans m1 m2 m3 : grows m1 m2 → grows m2 m3 → grows m1 m3.
Proof.
  intros (? & ? & ? & ?) (? & ? & ? & ?).
  repeat split; by etrans.
Qed.

Lemma grows_NormExpr m m' g e :
  grows m m' → memo.NormExpr m g = Some e → memo.NormExpr m' g = Some e.
Proof.
  intros ([new Hnew] & _) Hnorm. unfold memo.NormExpr, memo.lookupGroup in *.
  destruct (groups m !! N.to_nat g) as [grp|] eqn:Hg; [|done].
  by rewrite Hnew, (lookup_app_l_Some _ _ _ _ Hg).
Qed.

Lemma grows_Properties m m' g props :
  grows m m' → memo.Properties m g = Some props → memo.Properties m' g = Some props.
Proof.
  intros ([new Hnew] & _) Hp. unfold memo.Properties, memo.lookupGroup in *.
  destruct (groups m !! N.to_nat g) as [grp|] eqn:Hg; [|done].
  by rewrite Hnew, (lookup_app_l_Some _ _ _ _ Hg).
Qed.

Lemma memo_wf_same m m' :
  groups m' = groups m → exprMap m' = exprMap m → memo_wf m → memo_wf m'.
Proof.
  intros Hg Hi [H1 H2]. unfold memo_wf, memo.NormExpr, memo.lookupGroup in *.
  rewrite Hg, Hi. done.
Qed.

Lemma memo_wf_Init ctx : memo_wf (memo.Init ctx).
Proof.
  split.
  - intros fp g. simpl. by rewrite lookup_empty.
  - intros g e. unfold memo.NormExpr, memo.lookupGroup. by simpl.
Qed.

Lemma memo_wf_no_duplicates m g1 g2 e :
  memo_wf m → memo.NormExpr m g1 = Some e → memo.NormExpr m g2 = Some e → g1 = g2.
Proof. intros [_ H2] Hg1%H2 Hg2%H2. congruence. Qed.

Lemma memoize_grows ctx m e ev m' :
  memo.MemoizeNormExpr ctx m e = (ev, m') → grows m m'.
Proof.
  unfold memo.MemoizeNormExpr.
  destruct (exprMap m !! fingerprint e) eqn:Hfp; intros; simplify_eq.
  - apply grows_refl.
  - repeat split; simpl; try done.
    + by apply prefix_app_r.
    + by apply insert_subseteq.
Qed.

Lemma memoize_wf ctx m e ev m' :
  memo.MemoizeNormExpr ctx m e = (ev, m') → memo_wf m →
  memo_wf m' ∧ memo.NormExpr m' (evGroup ev) = Some e.
Proof.
  unfold memo.MemoizeNormExpr.
  destruct (exprMap m !! fingerprint e) as [g0|] eqn:Hfp; intros Hm [H1 H2];
    simplify_eq; simpl.
  - split; [done|].
    destruct (H1 _ _ Hfp) as (e0 & Hnorm & Heq%fingerprint_inj). by subst.
  - assert (∀ g e0, memo.NormExpr m g = Some e0 →
              memo.NormExpr
                (mkMemo (groups m ++ [mkGroup [e]
                           (deriveProps e (omap (memo.Properties m) (children e)))])
                        (<[fingerprint e := N.of_nat (length (groups m))]> (exprMap m))
                        (listStorage m) (privateStorage m) (root m) (rootProps m))
                g = Some e0) as Hold.
    { intros g e0. unfold memo.NormExpr, memo.lookupGroup. simpl.
      destruct (groups m !! N.to_nat g) as [grp|] eqn:Hg; [|done].
      by rewrite (lookup_app_l_Some _ _ _ _ Hg). }
    assert (memo.NormExpr
              (mkMemo (groups m ++ [mkGroup [e]
                         (deriveProps e (omap (memo.Properties m) (children e)))])
                      (<[fingerprint e := N.of_nat (length (groups m))]> (exprMap m))
                      (listStorage m) (privateStorage m) (root m) (rootProps m))
              (N.of_nat (length (groups m))) = Some e) as Hnew.
    { unfold memo.NormExpr, memo.lookupGroup. simpl.
      by rewrite Nat2N.id, list_lookup_middle. }
    split; [|done]. split.
    + intros fp g. simpl. rewrite lookup_insert. case_decide as Hcase.
      * intros [= <-]. subst fp. by exists e.
      * intros (e0 & Hnorm & Heq)%H1. exists e0. split; [by apply Hold | done].
    + intros g e0 Hnorm.
      unfold memo.NormExpr, memo.lookupGroup in Hnorm. simpl in Hnorm.
      destruct (decide (N.to_nat g < length (groups m))) as [Hlt|Hge].
      * rewrite lookup_app_l in Hnorm by done.
        assert (exprMap m !! fingerprint e0 = Some g) as Hidx by by apply H2.
        simpl. rewrite lookup_insert_ne; [done | congruence].
      * destruct (decide (N.to_nat g = length (groups m))) as [Heq|Hne].
        -- rewrite Heq, list_lookup_middle in Hnorm by done. simpl in Hnorm.
           injection Hnorm as <-. rewrite <-Heq, N2Nat.id. simpl.
           apply lookup_insert_eq.
        -- rewrite lookup_ge_None_2 in Hnorm; [done|].
           rewrite length_app; simpl; lia.
Qed.

Lemma Intern_prefix {P : Type} `{EqDecision P} (t : internTable P) (p : P) :
  t `prefix_of` (Intern t p).2.
Proof. destruct (Intern_extends t p) as [new ->]. by apply prefix_app_r. Qed.
End MemoInvariant.

Section MemoRel.
Context {runtime : GoRuntime} {builder : PropsBuilder}
        {env : NormEnv} {build : Build}.

#[local] Instance memoRel_preorder : PreOrder memoRel.
Proof.
  split.
  - intros s. split; [apply grows_refl | done].
  - intros s1 s2 s3 [Hg12 Hw12] [Hg23 Hw23].
    split; [by eapply grows_trans | auto].
Qed.

Lemma memoRel_same_memo s s' : mem (fac s') = mem (fac s) → memoRel s s'.
Proof.
  intros Hmem. unfold memoRel. rewrite Hmem. split; [apply grows_refl | done].
Qed.

Lemma memoRel_onConstruct e : steps memoRel (onConstruct e).
Proof.
  intros s g s' (ev & Hm & _ & _)%onConstruct_returned. split.
  - by eapply memoize_grows.
  - intros Hwf. by eapply memoize_wf.
Qed.

Lemma memoRel_list s items :
  memoRel s (mkState (withMem (fac s) (memo.InternList (mem (fac s)) items).2)
                     (trace s)).
Proof.
  unfold memo.InternList.
  pose proof (Intern_prefix (listStorage (mem (fac s))) items) as Hpre.
  destruct (Intern _ items) as [h t]; simpl in *. split.
  - by repeat split.
  - by apply memo_wf_same.
Qed.

Lemma memoRel_private s p :
  memoRel s (mkState (withMem (fac s) (memo.InternPrivate (mem (fac s)) p).2)
                     (trace s)).
Proof.
  rewrite InternPrivate_eq. simpl. split.
  - repeat split; simpl; try done. apply Intern_prefix.
  - by apply memo_wf_same.
Qed.

Lemma memoRel_enabled r : steps memoRel (ruleEnabled r).
Proof.
  intros s b s'. unfold ruleEnabled. unfold_M.
  destruct (matchedRule (fac s)); intros [= _ <-]; by apply memoRel_same_memo.
Qed.

Lemma memoRel_applied r g s s' :
  notifyApplied r g s = Returned ((), s') → memoRel s s'.
Proof.
  unfold notifyApplied. unfold_M.
  destruct (appliedRule (fac s)); intros [= <-]; by apply memoRel_same_memo.
Qed.

Lemma memoRel_Construct (fuel : nat) (e : Expr) : steps memoRel (Construct fuel e).
Proof.
  apply steps_Construct; try apply _.
  - apply memoRel_onConstruct.
  - apply memoRel_list.
  - apply memoRel_private.
  - intros s rc. by apply memoRel_same_memo.
  - apply memoRel_enabled.
  - intros r g s0 s1 s2 s3 _ _. apply memoRel_applied.
Qed.
Lemma memoRel_ConstructConstVal (fuel : nat) (d : Datum) :
  steps memoRel (ConstructConstVal fuel d).
Proof.
  apply steps_ConstructConstVal; try apply _.
  - apply memoRel_onConstruct.
  - apply memoRel_list.
  - apply memoRel_private.
  - intros s rc. by apply memoRel_same_memo.
  - apply memoRel_enabled.
  - intros r g s0 s1 s2 s3 _ _. apply memoRel_applied.
Qed.

Lemma memoRel_assignPlaceholders (fuel : nat) (group : GroupID) :
  steps memoRel (assignPlaceholders fuel group).
Proof.
  apply steps_assignPlaceholders; try apply _.
  - apply memoRel_onConstruct.
  - apply memoRel_list.
  - apply memoRel_private.
  - intros s rc. by apply memoRel_same_memo.
  - apply memoRel_enabled.
  - intros r g s0 s1 s2 s3 _ _. apply memoRel_applied.
Qed.

Lemma memoRel_AssignPlaceholders (fuel : nat) : steps memoRel (AssignPlaceholders fuel).
Proof.
  intros s [] s'. unfold AssignPlaceholders. rewrite bind_unfold. simpl.
  intros (g & s1 & Hwalk%memoRel_assignPlaceholders & Hset)%bind_returned.
  etrans; [done|]. unfold_M. injection Hset as <-. split.
  - by repeat split.
  - by apply memo_wf_same.
Qed.

Lemma memoRel_call (fuel : nat) (c : factoryCall) :
  isFactoryInit c = false → steps memoRel (runFactoryCall fuel c).
Proof.
  destruct c; simpl; intros Hinit; try done.
  - intros s [] s' [= <-]. by apply memoRel_same_memo.
  - intros s [] s' [= <-]. by apply memoRel_same_memo.
  - intros s [] s' [= <-]. by apply memoRel_same_memo.
  - intros s [] s' (h & s1 & Hrun & [= <-])%bind_returned.
    rewrite InternList_eq in Hrun. injection Hrun as _ <-. apply memoRel_list.
  - intros s [] s' (g & s1 & Hrun & [= <-])%bind_returned.
    by eapply memoRel_Construct.
  - intros s [] s' (g & s1 & Hrun & [= <-])%bind_returned.
    by eapply memoRel_ConstructConstVal.
  - apply memoRel_AssignPlaceholders.
Qed.

Lemma memoRel_calls (fuel : nat) (cs : list factoryCall) :
  existsb isFactoryInit cs = false → steps memoRel (runFactoryCalls fuel cs).
Proof.
  induction cs as [|c cs IH]; simpl.
  - intros _ s [] s' [= <-]. reflexivity.
  - intros [Hc Hcs]%orb_false_elim s [] s' ([] & s1 & H1 & H2)%bind_returned.
    etrans; [by eapply memoRel_call | by eapply IH].
Qed.

Lemma wf_call (fuel : nat) (c : factoryCall) s s' :
  memo_wf (mem (fac s)) →
  runFactoryCall fuel c s = Returned ((), s') → memo_wf (mem (fac s')).
Proof.
  destruct (isFactoryInit c) eqn:Hinit.
  - destruct c; try done. simpl. intros _. unfold Init. unfold_M.
    rewrite init_eq. simpl. intros [= <-]. apply memo_wf_Init.
  - intros Hwf Hrun. by eapply memoRel_call.
Qed.

Lemma wf_calls (fuel : nat) (cs : list factoryCall) : ∀ s s',
  memo_wf (mem (fac s)) →
  runFactoryCalls fuel cs s = Returned ((), s') → memo_wf (mem (fac s')).
Proof.
  induction cs as [|c cs IH]; simpl; intros s s' Hwf.
  - by intros [= <-].
  - intros ([] & s1 & H1 & H2)%bind_returned.
    eapply IH; [|done]. by eapply wf_call.
Qed.
End MemoRel.

(** In a well-formed memo, [onConstruct] returns a group whose canonical
    member is the very expression it was given, and no other group has that
    expression as canonical member; the memo is well formed afterwards, has
    grown by one group exactly when the fingerprint was new, and every group
    it had keeps its members and properties. *)
Theorem onConstruct_canonical_member
    {builder : PropsBuilder} {env : NormEnv} {build : Build}
    (e : Expr) (s : State) (g : GroupID) (s' : State) :
  memo_wf (mem (fac s)) →
  onConstruct e s = Returned (g, s') →
  memo.NormExpr (mem (fac s')) g = Some e
  ∧ (∀ g', memo.NormExpr (mem (fac s')) g' = Some e → g' = g)
  ∧ memo_wf (mem (fac s'))
  ∧ memo.groupCount (mem (fac s'))
    = memo.groupCount (mem (fac s))
      + match exprMap (mem (fac s)) !! fingerprint e with
        | Some _ => 0
        | None => 1
        end
  ∧ (∀ g0 e0, memo.NormExpr (mem (fac s)) g0 = Some e0 →
              memo.NormExpr (mem (fac s')) g0 = Some e0)
  ∧ (∀ g0 props, memo.Properties (mem (fac s)) g0 = Some props →
                 memo.Properties (mem (fac s')) g0 = Some props).
Proof.
  intros Hwf (ev & Hm & -> & _)%onConstruct_returned.
  destruct (memoize_wf _ _ _ _ _ Hm Hwf) as [Hwf' Hnorm].
  pose proof (memoize_grows _ _ _ _ _ Hm) as Hgrows.
  split; [done|]. split.
  { intros g' Hg'. by eapply memo_wf_no_duplicates. }
  split; [done|]. split.
  { unfold memo.MemoizeNormExpr in Hm. unfold memo.groupCount.
    destruct (exprMap (mem (fac s)) !! fingerprint e);
      injection Hm as _ Hmem; rewrite <-Hmem; simpl.
    - lia.
    - rewrite length_app. simpl. lia. }
  split.
  - intros g0 e0. by apply grows_NormExpr.
  - intros g0 props. by apply grows_Properties.
Qed.

Lemma onConstruct_canonical_member_witness :
  let e := mkExpr (OtherOp 3) [] [0%N] in
  ∃ g s',
    onConstruct (builder:=sampleBuilder) (env:=noRules) (build:=releaseBuild)
      e blankState = Returned (g, s')
    ∧ memo.NormExpr (mem (fac s')) g = Some e
    ∧ memo_wf (mem (fac s')).
Proof.
  eexists _, _. split; [reflexivity|].
  destruct (onConstruct_canonical_member
              (builder:=sampleBuilder) (env:=noRules) (build:=releaseBuild)
              (mkExpr (OtherOp 3) [] [0%N]) blankState _ _
              (memo_wf_Init noPlaceholders) eq_refl) as (Hnorm & _ & Hwf & _).
  done.
Defined.

(** Runs the left-hand side of the first equation of the goal and records
    the result as [H]. *)
Ltac run_equation H :=
  match goal with
  | |- (?lhs = _) ∧ _ =>
      let v := eval vm_compute in lhs in
      assert (H : lhs = v) by (vm_cast_no_check (@eq_refl _ v))
  end.

(** Calls on a factory other than [Init] only add to its memo: a group keeps
    its id, its canonical member and its properties, a fingerprint keeps the
    group it is indexed under, and the handle of an interned list or private
    value keeps naming that payload.  So ids and handles a client holds stay
    valid until the factory is initialized again. *)
Theorem factory_calls_only_grow_memo
    {runtime : GoRuntime} {builder : PropsBuilder} {env : NormEnv} {build : Build}
    (fuel : nat) (cs : list factoryCall) (s s' : State) :
  existsb isFactoryInit cs = false →
  runFactoryCalls fuel cs s = Returned ((), s') →
  (∀ g e, memo.NormExpr (mem (fac s)) g = Some e →
          memo.NormExpr (mem (fac s')) g = Some e)
  ∧ (∀ g props, memo.Properties (mem (fac s)) g = Some props →
                memo.Properties (mem (fac s')) g = Some props)
  ∧ (∀ (fp : Fingerprint) g, exprMap (mem (fac s)) !! fp = Some g →
             exprMap (mem (fac s')) !! fp = Some g)
  ∧ (∀ (h : nat) items, listStorage (mem (fac s)) !! h = Some items →
                listStorage (mem (fac s')) !! h = Some items)
  ∧ (∀ (h : nat) p, privateStorage (mem (fac s)) !! h = Some p →
            privateStorage (mem (fac s')) !! h = Some p)
  ∧ memo.groupCount (mem (fac s)) ≤ memo.groupCount (mem (fac s')).
Proof.
  intros Hinit Hrun.
  destruct (memoRel_calls fuel cs Hinit _ _ _ Hrun) as [Hgrows _].
  pose proof Hgrows as (Hgroups & Hindex & Hlists & Hprivates).
  split; [intros g e; by apply grows_NormExpr|].
  split; [intros g props; by apply grows_Properties|].
  split; [intros fp g Hfp; by eapply lookup_weaken|].
  split; [intros h items Hh; by eapply prefix_lookup_Some|].
  split; [intros h p Hh; by eapply prefix_lookup_Some|].
  by apply prefix_length.
Qed.

Lemma factory_calls_only_grow_memo_witness :
  ∃ s',
    runFactoryCalls (runtime:=doublingRuntime) (builder:=sampleBuilder)
      (env:=flipRules) (build:=releaseBuild) 3 (tail sampleSession) preparedState
    = Returned ((), s')
    ∧ memo.groupCount (mem (fac preparedState)) ≤ memo.groupCount (mem (fac s')).
Proof.
  eexists. run_equation Hrun. split; [exact Hrun|].
  exact (proj2 (proj2 (proj2 (proj2 (proj2
           (factory_calls_only_grow_memo
              (runtime:=doublingRuntime) (builder:=sampleBuilder)
              (env:=flipRules) (build:=releaseBuild) 3 (tail sampleSession)
              preparedState _ eq_refl Hrun)))))).
Defined.

(** Once a factory has been initialized, every sequence of calls on it that
    returns leaves its memo well formed, whatever state the factory was in
    before and whatever the rules do: each indexed fingerprint leads to a
    group with that canonical member, each canonical member is indexed, and
    no two groups have the same canonical member. *)
Theorem factory_memo_stays_well_formed
    {runtime : GoRuntime} {builder : PropsBuilder} {env : NormEnv} {build : Build}
    (fuel : nat) (ctx : EvalContext) (cs : list factoryCall) (s s' : State) :
  runFactoryCalls fuel (CallFactoryInit ctx :: cs) s = Returned ((), s') →
  memo_wf (mem (fac s'))
  ∧ ∀ g1 g2 e, memo.NormExpr (mem (fac s')) g1 = Some e →
               memo.NormExpr (mem (fac s')) g2 = Some e → g1 = g2.
Proof.
  simpl. intros ([] & s1 & Hinit & Hrun)%bind_returned.
  assert (memo_wf (mem (fac s1))) as Hwf1.
  { unfold Init in Hinit. unfold_M. rewrite init_eq in Hinit. simpl in Hinit.
    injection Hinit as <-. apply memo_wf_Init. }
  pose proof (wf_calls fuel cs _ _ Hwf1 Hrun) as Hwf.
  split; [done|]. intros g1 g2 e. by apply memo_wf_no_duplicates.
Qed.

Lemma factory_memo_stays_well_formed_witness :
  ∃ s',
    runFactoryCalls (runtime:=doublingRuntime) (builder:=sampleBuilder)
      (env:=flipRules) (build:=releaseBuild) 3 sampleSession tracingState
    = Returned ((), s')
    ∧ memo.groupCount (mem (fac s')) = 4
    ∧ memo_wf (mem (fac s')).
Proof.
  eexists. run_equation Hrun. split; [exact Hrun|].
  split; [vm_compute; reflexivity|].
  exact (proj1 (factory_memo_stays_well_formed
                  (runtime:=doublingRuntime) (builder:=sampleBuilder)
                  (env:=flipRules) (build:=releaseBuild) 3 boundPlaceholder
                  (tail sampleSession) tracingState _ Hrun)).
Defined.

(** ** What the callbacks are told *)

Section TraceRel.
Context {runtime : GoRuntime} {builder : PropsBuilder}
        {env : NormEnv} {build : Build}.

#[local] Instance traceRel_preorder : PreOrder traceRel.
Proof.
  split.
  - intros s. repeat split. exists []. by rewrite app_nil_r.
  - intros s1 s2 s3 (Hm12 & Ha12 & new1 & Ht12 & Hok1)
                    (Hm23 & Ha23 & new2 & Ht23 & Hok2).
    split; [congruence|]. split; [congruence|].
    exists (new1 ++ new2). split.
    + by rewrite Ht23, Ht12, app_assoc.
    + apply Forall_app. split; [done|]. by rewrite <-Hm12, <-Ha12.
Qed.

Lemma traceRel_quiet s s' :
  matchedRule (fac s') = matchedRule (fac s) →
  appliedRule (fac s') = appliedRule (fac s) →
  trace s' = trace s → traceRel s s'.
Proof.
  intros Hm Ha Ht. repeat split; [done..|].
  exists []. by rewrite app_nil_r.
Qed.

Lemma traceRel_onConstruct e : steps traceRel (onConstruct e).
Proof.
  intros s g s'. rewrite onConstruct_eq.
  destruct (memo.MemoizeNormExpr _ _ e) as [ev m]; simpl.
  destruct RaceEnabled eqn:Hrace.
  - destruct (checkExpr _ ev); [done|]. intros [= _ <-].
    repeat split; [done..|]. exists [CheckExprCalled ev]. split; [done|].
    by apply Forall_singleton.
  - intros [= _ <-]. by apply traceRel_quiet.
Qed.

Lemma traceRel_enabled r : steps traceRel (ruleEnabled r).
Proof.
  intros s b s'. unfold ruleEnabled. unfold_M.
  destruct (matchedRule (fac s)) as [callback|] eqn:Hcb; intros [= _ <-].
  - repeat split; [done..|]. exists [MatchedRuleCalled r (callback r)].
    split; [done|]. apply Forall_singleton. simpl. by exists callback.
  - by apply traceRel_quiet.
Qed.

Lemma ruleEnabled_true r s0 s1 callback :
  ruleEnabled r s0 = Returned (true, s1) →
  matchedRule (fac s1) = Some callback → callback r = true.
Proof.
  unfold ruleEnabled. unfold_M.
  destruct (matchedRule (fac s0)) as [cb|] eqn:Hcb; simpl.
  - intros [= Htrue <-]. simpl. rewrite Hcb. by intros [= <-].
  - intros [= <-]. by rewrite Hcb.
Qed.

Lemma traceRel_applied r g s0 s1 s2 s3 :
  ruleEnabled r s0 = Returned (true, s1) → traceRel s1 s2 →
  notifyApplied r g s2 = Returned ((), s3) → traceRel s2 s3.
Proof.
  intros Henabled (Hm & _) . unfold notifyApplied. unfold_M.
  destruct (appliedRule (fac s2)) as [callback|] eqn:Hcb; intros [= <-].
  - repeat split; [done..|]. exists [AppliedRuleCalled r g 0%N 0%Z].
    split; [done|]. apply Forall_singleton. simpl. split; [by rewrite Hcb|].
    intros cb Hcb2. eapply ruleEnabled_true; [done|]. by rewrite <-Hm.
  - by apply traceRel_quiet.
Qed.

Lemma traceRel_Construct (fuel : nat) (e : Expr) : steps traceRel (Construct fuel e).
Proof.
  apply steps_Construct; try apply _.
  - apply traceRel_onConstruct.
  - intros s items. apply traceRel_quiet; by destruct (memo.InternList _ items).
  - intros s p. by apply traceRel_quiet.
  - intros s rc. by apply traceRel_quiet.
  - apply traceRel_enabled.
  - apply traceRel_applied.
Qed.
End TraceRel.

(** A construction only adds to the trace, and what it adds obeys the
    callbacks installed when it started, however deep the rules recurse: a
    "rule matched" call is made only to an installed callback and records its
    answer; a "rule applied" call is made only to an installed callback, and
    never for a rule that the "rule matched" callback refuses; the consistency
    check runs only in a race-enabled build. *)
Theorem Construct_respects_callbacks
    {runtime : GoRuntime} {builder : PropsBuilder} {env : NormEnv} {build : Build}
    (fuel : nat) (e : Expr) (s : State) (g : GroupID) (s' : State) :
  Construct fuel e s = Returned (g, s') →
  matchedRule (fac s') = matchedRule (fac s)
  ∧ appliedRule (fac s') = appliedRule (fac s)
  ∧ ∃ new,
      trace s' = trace s ++ new
      ∧ (∀ r proceed, MatchedRuleCalled r proceed ∈ new →
           ∃ callback, matchedRule (fac s) = Some callback ∧ proceed = callback r)
      ∧ (∀ r g' expr added, AppliedRuleCalled r g' expr added ∈ new →
           is_Some (appliedRule (fac s))
           ∧ ∀ callback, matchedRule (fac s) = Some callback → callback r = true)
      ∧ (∀ ev, CheckExprCalled ev ∈ new → RaceEnabled = true).
Proof.
  intros (Hm & Ha & new & Ht & Hok)%traceRel_Construct.
  split; [done|]. split; [done|]. exists new. split; [done|].
  rewrite Forall_forall in Hok.
  repeat split.
  - intros r proceed Hin. by apply (Hok _ Hin).
  - by apply (Hok _ H).
  - by apply (Hok _ H).
  - intros ev Hin. by apply (Hok _ Hin).
Qed.

(** With [FlipDown] refused, [FlipUp] fires alone: its replacement is memoized
    as it is, and the trace shows the two callback answers and one
    application. *)
Lemma Construct_respects_callbacks_witness :
  ∃ s',
    Construct (runtime:=doublingRuntime) (builder:=sampleBuilder)
      (env:=flipRules) (build:=releaseBuild) 3
      (mkExpr (OtherOp 1) [] [5%N]) selectiveState = Returned (0%N, s')
    ∧ memo.NormExpr (mem (fac s')) 0%N = Some (mkExpr (OtherOp 2) [] [5%N])
    ∧ trace s' = [MatchedRuleCalled "FlipUp" true;
                  MatchedRuleCalled "FlipDown" false;
                  AppliedRuleCalled "FlipUp" 0%N 0%N 0%Z]
    ∧ matchedRule (fac s') = matchedRule (fac selectiveState).
Proof.
  eexists. run_equation Hrun. split; [exact Hrun|].
  split; [vm_compute; reflexivity|].
  split; [vm_compute; reflexivity|].
  exact (proj1 (Construct_respects_callbacks
                  (runtime:=doublingRuntime) (builder:=sampleBuilder)
                  (env:=flipRules) (build:=releaseBuild) 3
                  (mkExpr (OtherOp 1) [] [5%N]) selectiveState 0%N _ Hrun)).
Defined.

(** ** A detected cycle *)

Section CycleSkip.
Context {runtime : GoRuntime} {builder : PropsBuilder}
        {env : NormEnv} {build : Build}.

Lemma tryRules_cycle construct (e : Expr) (rs : list Rule) : ∀ s,
  detectCycle (cycles (fac s)) (fingerprint e) = true →
  tryRules construct e rs s
  = tryRules construct e (filter (λ r, detectCycles r = false) rs) s.
Proof.
  induction rs as [|r rs IH]; intros s Hcycle; [done|].
  rewrite filter_cons. destruct (decide (detectCycles r = false)) as [Htag|Htag].
  - cbn [tryRules]. rewrite !bind_unfold. simpl. rewrite Htag. simpl.
    destruct (matchRule r (mem (fac s)) e) as [replacement|]; [|by apply IH].
    rewrite !bind_unfold.
    destruct (ruleEnabled (ruleName r) s) as [[enabled s1]| |] eqn:Hen;
      simpl; [|done..].
    destruct enabled; [done|]. apply IH.
    apply keeps_ruleEnabled in Hen. unfold frame in Hen.
    injection Hen as _ _ _ Hstack _ _.
    rewrite detectCycle_decide in *. by rewrite Hstack.
  - apply not_false_iff_true in Htag.
    cbn [tryRules]. rewrite bind_unfold. simpl. rewrite Htag, Hcycle. simpl.
    destruct (matchRule r (mem (fac s)) e); by apply IH.
Qed.
End CycleSkip.

(** While the fingerprint of an expression is on the guard stack and every
    candidate rule of its operator is tagged for cycle detection, constructing
    the expression again fires no rule.  The construction returns exactly when
    [onConstruct] returns for the expression as given, with the same group and
    the same factory; the fingerprint of the expression is then indexed under
    that group, and no "rule applied" notification has been sent.  This is how
    nested rules that regenerate an expression in flight come to a halt. *)
Theorem detected_cycle_skips_tagged_rules
    {runtime : GoRuntime} {builder : PropsBuilder} {env : NormEnv} {build : Build}
    (fuel : nat) (e : Expr) (s : State) :
  detectCycle (cycles (fac s)) (fingerprint e) = true →
  forallb detectCycles (rules (op e)) = true →
  (∀ g s', Construct (S fuel) e s = Returned (g, s') →
     ∃ s0,
       onConstruct e s = Returned (g, s0)
       ∧ fac s' = fac s0
       ∧ exprMap (mem (fac s')) !! fingerprint e = Some g
       ∧ ∃ new, trace s' = trace s ++ new
                ∧ ∀ r g' expr added, AppliedRuleCalled r g' expr added ∉ new)
  ∧ (∀ g s0, onConstruct e s = Returned (g, s0) →
       ∃ s', Construct (S fuel) e s = Returned (g, s') ∧ fac s' = fac s0).
Proof.
  intros Hcycle Hall.
  assert (Construct (S fuel) e s = onConstruct e s) as ->.
  { simpl. rewrite tryRules_cycle by done.
    assert (filter (λ r, detectCycles r = false) (rules (op e)) = []) as ->; [|done].
    induction (rules (op e)) as [|r rs IH]; [done|].
    simpl in Hall. apply andb_true_iff in Hall as [Hr Hrs].
    rewrite filter_cons. destruct (decide (detectCycles r = false)) as [Hf|_];
      [congruence | by apply IH]. }
  split; [|by eauto].
  intros g s' Hrun. exists s'. split; [done|]. split; [done|].
  split; [by eapply onConstruct_indexed|].
  rewrite onConstruct_eq in Hrun.
  destruct (memo.MemoizeNormExpr _ _ e) as [ev m]; simpl in Hrun.
  destruct RaceEnabled; [destruct (checkExpr _ ev)|]; simplify_eq; simpl.
  - exists [CheckExprCalled ev]. split; [done|].
    intros r g' expr added Hin%list_elem_of_singleton. done.
  - exists []. split; [by rewrite app_nil_r|].
    intros r g' expr added Hin. by apply not_elem_of_nil in Hin.
Qed.

Lemma detected_cycle_skips_tagged_rules_witness :
  let e := mkExpr (OtherOp 1) [] [5%N] in
  ∃ s',
    Construct (runtime:=doublingRuntime) (builder:=sampleBuilder)
      (env:=flipRules) (build:=releaseBuild) 3 e inFlightState = Returned (0%N, s')
    ∧ ∃ s0,
        onConstruct (builder:=sampleBuilder) (env:=flipRules) (build:=releaseBuild)
          e inFlightState = Returned (0%N, s0)
        ∧ fac s' = fac s0
        ∧ exprMap (mem (fac s')) !! fingerprint e = Some 0%N.
Proof.
  intros e. eexists. run_equation Hrun. split; [exact Hrun|].
  destruct (proj1 (detected_cycle_skips_tagged_rules
                     (runtime:=doublingRuntime) (builder:=sampleBuilder)
                     (env:=flipRules) (build:=releaseBuild) 2
                     e inFlightState eq_refl eq_refl) _ _ Hrun)
    as (s0 & H0 & Hfac & Hidx & _).
  by exists s0.
Defined.

(** ** Constants *)

Section Constants.
Context {runtime : GoRuntime} {builder : PropsBuilder}
        {env : NormEnv} {build : Build}.
Implicit Types (s : State) (d : Datum) (g : GroupID).

Lemma memoize_tables ctx (m : Memo) (e : Expr) ev m' :
  memo.MemoizeNormExpr ctx m e = (ev, m') →
  listStorage m' = listStorage m ∧ privateStorage m' = privateStorage m.
Proof.
  unfold memo.MemoizeNormExpr.
  by destruct (exprMap m !! fingerprint e); intros; simplify_eq.
Qed.

Lemma Construct_disabled_eq (fuel : nat) (e : Expr) s callback :
  matchedRule (fac s) = Some callback → (∀ r, callback r = false) →
  Construct (S fuel) e s
  = onConstruct e (mkState (fac s) (trace s ++ skipEvents (fac s) e (rules (op e)))).
Proof.
  intros Hcb Hfalse.
  change (Construct (S fuel) e s) with (tryRules (Construct fuel) e (rules (op e)) s).
  by erewrite tryRules_disabled.
Qed.

Lemma Construct_disabled_returned (fuel : nat) (e : Expr) s callback g s' :
  memo_wf (mem (fac s)) →
  matchedRule (fac s) = Some callback → (∀ r, callback r = false) →
  Construct (S fuel) e s = Returned (g, s') →
  memo.NormExpr (mem (fac s')) g = Some e
  ∧ exprMap (mem (fac s')) !! fingerprint e = Some g
  ∧ privateStorage (mem (fac s')) = privateStorage (mem (fac s)).
Proof.
  intros Hwf Hcb Hfalse. rewrite (Construct_disabled_eq _ _ _ _ Hcb Hfalse).
  intros (ev & Hm & -> & _)%onConstruct_returned. simpl in Hm.
  split; [by eapply memoize_wf|].
  split; [by eapply memoize_indexed|].
  by eapply memoize_tables.
Qed.

Lemma Construct_disabled_hit (fuel : nat) (e : Expr) s callback g0 g s' :
  matchedRule (fac s) = Some callback → (∀ r, callback r = false) →
  exprMap (mem (fac s)) !! fingerprint e = Some g0 →
  Construct (S fuel) e s = Returned (g, s') →
  g = g0 ∧ mem (fac s') = mem (fac s).
Proof.
  intros Hcb Hfalse Hfp. rewrite (Construct_disabled_eq _ _ _ _ Hcb Hfalse).
  intros Hrun. by eapply (onConstruct_hit e (mkState _ _)).
Qed.

Lemma rebuilt_memo (m : Memo) :
  mkMemo (groups m) (exprMap m) (listStorage m) (privateStorage m)
         (root m) (rootProps m) = m.
Proof. by destruct m. Qed.

Lemma InternType_bind {A} (t : types.T) (k : PrivateID → M A) s :
  (InternType t ≫= k) s
  = k (memo.InternPrivate (mem (fac s)) (PrivType t)).1
      (mkState (withMem (fac s) (memo.InternPrivate (mem (fac s)) (PrivType t)).2)
               (trace s)).
Proof.
  unfold InternType. unfold_M.
  by destruct (memo.InternPrivate (mem (fac s)) (PrivType t)).
Qed.

Lemma InternDatum_bind {A} d (k : PrivateID → M A) s :
  (InternDatum d ≫= k) s
  = k (memo.InternPrivate (mem (fac s)) (PrivDatum d)).1
      (mkState (withMem (fac s) (memo.InternPrivate (mem (fac s)) (PrivDatum d)).2)
               (trace s)).
Proof.
  unfold InternDatum. unfold_M.
  by destruct (memo.InternPrivate (mem (fac s)) (PrivDatum d)).
Qed.

(** A construction with the rules disabled, after a private value has been
    interned. *)
Lemma interned_then_constructed (fuel : nat) (p : Private) (e : Expr)
    s callback g s' :
  memo_wf (mem (fac s)) →
  matchedRule (fac s) = Some callback → (∀ r, callback r = false) →
  Construct (S fuel) e
    (mkState (withMem (fac s) (memo.InternPrivate (mem (fac s)) p).2) (trace s))
  = Returned (g, s') →
  memo.NormExpr (mem (fac s')) g = Some e
  ∧ exprMap (mem (fac s')) !! fingerprint e = Some g
  ∧ handleOf (privateStorage (mem (fac s'))) p
    = Some (N.to_nat (memo.InternPrivate (mem (fac s)) p).1).
Proof.
  intros Hwf Hcb Hfalse Hrun. rewrite InternPrivate_eq in *. simpl fst in *.
  simpl snd in *.
  eapply Construct_disabled_returned in Hrun as (Hnorm & Hidx & Hpriv);
    [|by eapply memo_wf_same; [..|exact Hwf] | exact Hcb | exact Hfalse].
  do 2 (split; [done|]).
  rewrite Hpriv. simpl. apply Intern_handle.
Qed.

(** What a construction of a constant returns, with the rules disabled. *)
Lemma constVal_returned (fuel : nat) d s callback g s' :
  memo_wf (mem (fac s)) →
  matchedRule (fac s) = Some callback → (∀ r, callback r = false) →
  ConstructConstVal (S fuel) d s = Returned (g, s') →
  ∃ h,
    memo.NormExpr (mem (fac s')) g = Some (constExpr d h)
    ∧ exprMap (mem (fac s')) !! fingerprint (constExpr d h) = Some g
    ∧ ∀ p, constPrivate d = Some p →
           handleOf (privateStorage (mem (fac s'))) p = Some (N.to_nat h).
Proof.
  intros Hwf Hcb Hfalse.
  unfold ConstructConstVal, constExpr, constPrivate.
  destruct (decide (d = DNull)) as [->|Hnull].
  - rewrite InternType_bind. unfold ConstructNull. intros Hrun.
    eexists. eapply interned_then_constructed in Hrun as (? & ? & ?); [|done..].
    do 2 (split; [done|]). by intros p [= <-].
  - destruct (asDBool d) as [[|]|] eqn:Hbool.
    + unfold ConstructTrue. intros Hrun. exists 0%N.
      destruct (Construct_disabled_returned _ _ _ _ _ _ Hwf Hcb Hfalse Hrun)
        as (? & ? & _). by repeat split.
    + unfold ConstructFalse. intros Hrun. exists 0%N.
      destruct (Construct_disabled_returned _ _ _ _ _ _ Hwf Hcb Hfalse Hrun)
        as (? & ? & _). by repeat split.
    + rewrite InternDatum_bind. unfold ConstructConst. intros Hrun.
      eexists. eapply interned_then_constructed in Hrun as (? & ? & ?); [|done..].
      do 2 (split; [done|]). by intros p [= <-].
Qed.

(** A construction with the rules disabled, after a private value that was
    in its table has been interned again: nothing changes when the
    expression is indexed. *)
Lemma known_then_constructed (fuel : nat) (p : Private) (e : Expr)
    s callback (h : PrivateID) g0 g s' :
  matchedRule (fac s) = Some callback → (∀ r, callback r = false) →
  handleOf (privateStorage (mem (fac s))) p = Some (N.to_nat h) →
  (memo.InternPrivate (mem (fac s)) p).1 = h
  ∧ (exprMap (mem (fac s)) !! fingerprint e = Some g0 →
     Construct (S fuel) e
       (mkState (withMem (fac s) (memo.InternPrivate (mem (fac s)) p).2) (trace s))
     = Returned (g, s') →
     g = g0 ∧ mem (fac s') = mem (fac s)).
Proof.
  intros Hcb Hfalse Hp.
  rewrite InternPrivate_eq, (Intern_known _ _ _ Hp). simpl.
  rewrite rebuilt_memo, N2Nat.id. split; [done|]. intros Hidx Hrun.
  eapply Construct_disabled_hit in Hrun as [-> Hmem]; [|exact Hcb|exact Hfalse|exact Hidx].
  split; [done|]. by rewrite Hmem.
Qed.

(** Constructing a constant that is in the memo already changes nothing. *)
Lemma constVal_again (fuel : nat) d s callback h g0 g s' :
  matchedRule (fac s) = Some callback → (∀ r, callback r = false) →
  (∀ p, constPrivate d = Some p →
        handleOf (privateStorage (mem (fac s))) p = Some (N.to_nat h)) →
  exprMap (mem (fac s)) !! fingerprint (constExpr d h) = Some g0 →
  ConstructConstVal (S fuel) d s = Returned (g, s') →
  g = g0 ∧ mem (fac s') = mem (fac s).
Proof.
  intros Hcb Hfalse.
  unfold ConstructConstVal, constExpr, constPrivate.
  destruct (decide (d = DNull)) as [->|Hnull].
  - intros Hh Hidx. rewrite InternType_bind. unfold ConstructNull.
    destruct (known_then_constructed fuel (PrivType types.Unknown)
                (mkExpr NullOp [h] []) s callback h g0 g s' Hcb Hfalse
                (Hh _ eq_refl)) as [-> Hhit].
    by apply Hhit.
  - destruct (asDBool d) as [[|]|] eqn:Hbool; intros Hh Hidx.
    + by apply Construct_disabled_hit with (callback := callback).
    + by apply Construct_disabled_hit with (callback := callback).
    + rewrite InternDatum_bind. unfold ConstructConst.
      destruct (known_then_constructed fuel (PrivDatum d)
                  (mkExpr ConstOp [h] []) s callback h g0 g s' Hcb Hfalse
                  (Hh _ eq_refl)) as [-> Hhit].
      by apply Hhit.
Qed.
End Constants.

(** With the optimizations disabled and a well-formed memo, constants are
    shared and told apart: two calls of [ConstructConstVal] return the same
    group exactly when their datums are equal, the second call for an equal
    datum leaves the memo as it found it, and the group returned has as
    canonical member the [Null], [True], [False] or [Const] expression of the
    datum, over the handle under which its private value is stored. *)
Theorem constants_are_shared
    {runtime : GoRuntime} {builder : PropsBuilder} {env : NormEnv} {build : Build}
    (fuel fuel' : nat) (d1 d2 : Datum) (callback : MatchedRuleFunc)
    (s : State) (g1 : GroupID) (s1 : State) (g2 : GroupID) (s2 : State) :
  memo_wf (mem (fac s)) →
  matchedRule (fac s) = Some callback → (∀ r, callback r = false) →
  ConstructConstVal (S fuel) d1 s = Returned (g1, s1) →
  ConstructConstVal (S fuel') d2 s1 = Returned (g2, s2) →
  (g1 = g2 ↔ d1 = d2)
  ∧ (d1 = d2 → mem (fac s2) = mem (fac s1))
  ∧ ∃ h, memo.NormExpr (mem (fac s2)) g2 = Some (constExpr d2 h)
         ∧ ∀ p, constPrivate d2 = Some p →
                privateStorage (mem (fac s2)) !! N.to_nat h = Some p.
Proof.
  intros Hwf Hcb Hfalse H1 H2.
  pose proof (keeps_ConstructConstVal _ _ _ _ _ H1) as Hframe.
  unfold frame in Hframe. injection Hframe as _ Hcb1 _ _ _ _.
  rewrite Hcb in Hcb1.
  destruct (memoRel_ConstructConstVal _ _ _ _ _ H1) as [_ Hwf1].
  specialize (Hwf1 Hwf).
  destruct (memoRel_ConstructConstVal _ _ _ _ _ H2) as [Hgrows _].
  destruct (constVal_returned _ _ _ _ _ _ Hwf Hcb Hfalse H1)
    as (h1 & Hn1 & Hi1 & Hh1).
  destruct (constVal_returned _ _ _ _ _ _ Hwf1 Hcb1 Hfalse H2)
    as (h2 & Hn2 & Hi2 & Hh2).
  assert (∀ p1 p2, constPrivate d1 = Some p1 → constPrivate d2 = Some p2 →
                   h1 = h2 → p1 = p2) as Hsame.
  { intros p1 p2 Hp1%Hh1%handleOf_Some Hp2%Hh2%handleOf_Some <-.
    destruct Hgrows as (_ & _ & _ & Hpre).
    pose proof (prefix_lookup_Some _ _ _ _ Hp1 Hpre) as Hp1'.
    unfold internTable in *. rewrite Hp2 in Hp1'. by injection Hp1'. }
  split; [split|split].
  - intros <-. pose proof (grows_NormExpr _ _ _ _ Hgrows Hn1) as Hn1'.
    rewrite Hn2 in Hn1'. injection Hn1' as Heq.
    destruct d1 as [|[|]|z1|str1], d2 as [|[|]|z2|str2];
      cbv in Heq; try discriminate; try done;
      injection Heq as Hh;
      specialize (Hsame _ _ eq_refl eq_refl (eq_sym Hh)); congruence.
  - intros <-. symmetry.
    by eapply (constVal_again fuel' d1 s1 callback h1 g1 g2 s2).
  - intros <-.
    by eapply (constVal_again fuel' d1 s1 callback h1 g1 g2 s2).
  - exists h2. split; [done|]. intros p Hp. by apply handleOf_Some, Hh2.
Qed.

Lemma constants_are_shared_witness :
  ∃ g1 s1 g2 s2,
    ConstructConstVal (runtime:=doublingRuntime) (builder:=sampleBuilder)
      (env:=flipRules) (build:=releaseBuild) 1 (DInt 7) disabledState
    = Returned (g1, s1)
    ∧ ConstructConstVal (runtime:=doublingRuntime) (builder:=sampleBuilder)
        (env:=flipRules) (build:=releaseBuild) 1 (DString "seven") s1
      = Returned (g2, s2)
    ∧ (g1 = g2 ↔ DInt 7 = DString "seven").
Proof.
  eexists _, _, _, _.
  run_equation H1. split; [exact H1|].
  run_equation H2. split; [exact H2|].
  exact (proj1 (constants_are_shared
                  (runtime:=doublingRuntime) (builder:=sampleBuilder)
                  (env:=flipRules) (build:=releaseBuild) 0 0
                  (DInt 7) (DString "seven") (λ _, false) disabledState
                  _ _ _ _ (memo_wf_Init noPlaceholders) eq_refl
                  (λ _, eq_refl) H1 H2)).
Defined.

(** ** The reduction command *)

Section ReduceFacts.
Import reducecmd.

Lemma string_length_append (s t : string) :
  String.length (String.append s t) = String.length s + String.length t.
Proof. induction s as [|c s IH]; simpl; [done | by rewrite IH]. Qed.

Lemma substring_all (t : string) : substring 0 (String.length t) t = t.
Proof. induction t as [|c t IH]; simpl; [done | by rewrite IH]. Qed.

Lemma substring_append_tail (s t : string) :
  substring (String.length s) (String.length t) (String.append s t) = t.
Proof. induction s as [|c s IH]; simpl; [apply substring_all | done]. Qed.

Lemma HasSuffix_append (s t : string) : HasSuffix (String.append s t) t = true.
Proof.
  unfold HasSuffix. rewrite string_length_append.
  apply andb_true_iff. split; [apply Nat.leb_le; lia|].
  replace (String.length s + String.length t - String.length t)
    with (String.length s) by lia.
  rewrite substring_append_tail. apply String.eqb_refl.
Qed.

Lemma sqlInput_terminated (f : string) : HasSuffix (sqlInput f) ";" = true.
Proof.
  unfold sqlInput. destruct (HasSuffix f ";") eqn:Hf; simpl; [done|].
  apply HasSuffix_append.
Qed.
End ReduceFacts.

(** The SQL that [interesting] feeds to the demo command always ends in a
    semicolon: a candidate that ends in one is fed as it is, any other gets
    exactly one appended, so terminating twice changes nothing and a candidate
    and its terminated form get the same verdict.  The verdict is fatal
    exactly when the command could not be found or its path is bad; any other
    error, such as a failing exit status, is ignored and the output alone
    decides. *)
Theorem interesting_feeds_terminated_sql
    (CombinedOutput : reducecmd.Cmd → string * reducecmd.runError)
    (Match : string → bool) (path f : string) :
  reducecmd.HasSuffix (reducecmd.sqlInput f) ";" = true
  ∧ reducecmd.sqlInput (reducecmd.sqlInput f) = reducecmd.sqlInput f
  ∧ (reducecmd.sqlInput f = f ↔ reducecmd.HasSuffix f ";" = true)
  ∧ (reducecmd.HasSuffix f ";" = false →
     reducecmd.sqlInput f = String.append f ";")
  ∧ reducecmd.interesting CombinedOutput Match path (reducecmd.sqlInput f)
    = reducecmd.interesting CombinedOutput Match path f
  ∧ ∃ out err,
      CombinedOutput (reducecmd.mkCmd path ["demo"] (reducecmd.sqlInput f))
      = (out, err)
      ∧ (reducecmd.interesting CombinedOutput Match path f = reducecmd.Fatal
         ↔ err = reducecmd.ExecError true ∨ err = reducecmd.PathError)
      ∧ (∀ matched,
           reducecmd.interesting CombinedOutput Match path f
           = reducecmd.Verdict matched → matched = Match out).
Proof.
  pose proof (sqlInput_terminated f) as Hterm.
  assert (reducecmd.sqlInput (reducecmd.sqlInput f) = reducecmd.sqlInput f) as Hidem.
  { unfold reducecmd.sqlInput at 1. by rewrite Hterm. }
  split; [done|]. split; [done|]. split.
  { split.
    - intros Heq. by rewrite <-Heq.
    - intros Hf. unfold reducecmd.sqlInput. by rewrite Hf. }
  split.
  { intros Hf. unfold reducecmd.sqlInput. by rewrite Hf. }
  split.
  { unfold reducecmd.interesting. by rewrite Hidem. }
  unfold reducecmd.interesting.
  destruct (CombinedOutput _) as [out err]. exists out, err. split; [done|].
  destruct err as [|[|]| |]; (split; [split|]);
    try done; try (by intros [|]); try (by left); try (by right);
    by intros matched [= <-].
Qed.

(** ** Building the same expression again *)

Section Replay.
Context {runtime : GoRuntime} {builder : PropsBuilder}
        {env : NormEnv} {build : Build}.
Implicit Types (s t : State) (e : Expr) (g : GroupID).

#[local] Existing Instance memoRel_preorder.
















End Replay.

(** In a build without the consistency check the second construction does
    return. *)
Section Rebuild.
Context {runtime : GoRuntime} {builder : PropsBuilder}
        {env : NormEnv} {build : Build}.
Implicit Types (s t : State) (e : Expr) (g : GroupID).
Hypothesis release : RaceEnabled = false.

#[local] Existing Instance memoRel_preorder.





End Rebuild.




